(** * gofixunkeyedcomposites: the keying engine of [main.go]

    A shallow embedding of [main.go]: the visitor that classifies composite
    literals and collects insertions ([Visit], [writeAfter]), the patch
    applier ([out]), the driver ([fixFile]) and the command ([main]).

    The Go libraries the program calls (go/parser, go/types, go/format,
    the file system) are collaborators: they are not part of the program and
    appear as the fields of an environment record [Env]. *)

From Stdlib Require Import ZArith Lia.
From Stdlib Require Import Strings.Byte.
From stdpp Require Import base option list sorting gmap strings.

Set Warnings "-register-all".

Local Open Scope Z_scope.

(** ** go/types: the shapes the engine inspects *)

Module types.

(** [types.Type].  A [Named] type carries what [Underlying()] returns; a
    [Struct] carries its fields (name and type) in declared order. *)
Inductive GoType : Type :=
| Basic (name : string)
| Pointer (elem : GoType)
| Named (name : string) (underlying : GoType)
| Struct (fields : list (string * GoType))
| Slice (elem : GoType)
| Array (len : Z) (elem : GoType)
| Map (key elem : GoType)
| Signature.

(** [*types.Struct]: the field list. *)
Abbreviation StructT := (list (string * GoType)).

Definition NumFields (s : StructT) : nat := length s.

(** [s.Field(i)] panics when [i] is out of range: [None]. *)
Definition Field (s : StructT) (i : nat) : option (string * GoType) := s !! i.

Definition Name (f : string * GoType) : string := f.1.

(** [types.TypeAndValue]; the engine reads its [Type] field only. *)
Record TypeAndValue : Type := { Type_ : GoType }.

End types.

(** ** go/token and go/ast: positions and syntax trees *)

Module token.

(** [*token.File], reduced to its base. *)
Record File : Type := { base : Z }.

(** [f.Offset(p)], for a position of that file. *)
Definition Offset (f : File) (p : Z) : Z := p - base f.

End token.

Module ast.

(** [ast.Node], as far as the visitor tells nodes apart.  [id] is the
    identity of a literal (the pointer that keys [types.Info.Types]);
    every other kind of node is an [OtherNode] with its position and its
    children in the order [ast.Walk] visits them. *)
Inductive Node : Type :=
| CompositeLit (id : nat) (Type_ : option Node) (Lbrace : Z) (Elts : list Node)
| KeyValueExpr (Key Value : Node)
| OtherNode (pos : Z) (children : list Node).

(** [n.Pos()]: a literal starts at its type, or at its brace when the type
    is elided; a key-value pair starts at its key. *)
Fixpoint Pos (n : Node) : Z :=
  match n with
  | CompositeLit _ (Some t) _ _ => Pos t
  | CompositeLit _ None lb _ => lb
  | KeyValueExpr k _ => Pos k
  | OtherNode p _ => p
  end.

(** The type assertion of a node to a key-value expression. *)
Definition isKeyValueExpr (n : Node) : bool :=
  match n with KeyValueExpr _ _ => true | _ => false end.

(** [*ast.File]: the package name, the [token.File] that the file set
    holds for its positions ([fset.File(file.Pos())]), and the file node
    itself. *)
Record File : Type := { Name : string; tokFile : token.File; root : Node }.

(** [*ast.Package]: [Files] is a map from file name to file; an
    association list keeps its entries in some iteration order. *)
Record Package : Type := { PkgName : string; Files : list (string * File) }.

End ast.

(** A nested induction principle for syntax trees. *)
Section NodeInd.
Import ast.
Variable P : Node -> Prop.
Hypothesis Hlit : forall id ty lb elts,
  (forall t, ty = Some t -> P t) -> Forall P elts -> P (CompositeLit id ty lb elts).
Hypothesis Hkv : forall k v, P k -> P v -> P (KeyValueExpr k v).
Hypothesis Hother : forall p cs, Forall P cs -> P (OtherNode p cs).

Fixpoint Node_nested_ind (n : Node) : P n :=
  match n with
  | CompositeLit id ty lb elts =>
      Hlit id ty lb elts
        (match ty as o return forall t, o = Some t -> P t with
         | Some t0 => fun t E =>
             match E in _ = y return match y with Some t' => P t' | None => True end with
             | eq_refl => Node_nested_ind t0
             end
         | None => fun t E =>
             match E in _ = y return match y with Some t' => P t' | None => True end with
             | eq_refl => I
             end
         end)
        ((fix go (l : list Node) : Forall P l :=
            match l with
            | [] => Forall_nil_2 P
            | x :: l' => Forall_cons_2 P x l' (Node_nested_ind x) (go l')
            end) elts)
  | KeyValueExpr k v => Hkv k v (Node_nested_ind k) (Node_nested_ind v)
  | OtherNode p cs =>
      Hother p cs
        ((fix go (l : list Node) : Forall P l :=
            match l with
            | [] => Forall_nil_2 P
            | x :: l' => Forall_cons_2 P x l' (Node_nested_ind x) (go l')
            end) cs)
  end.
End NodeInd.

(** ** The visitor *)

(** [[]byte(s)] *)
Definition bytes_of (s : string) : list byte := String.list_byte_of_string s.

(** [type chunk struct { offset int; b []byte }] *)
Record chunk : Type := { offset : Z; b : list byte }.

(** [type visitor struct].  [in_] is [None] for a nil slice. *)
Record visitor : Type := {
  file : token.File;
  types_ : gmap nat types.TypeAndValue;
  in_ : option (list byte);
  added : list chunk;
  fixed : bool
}.

Definition set_added (v : visitor) (a : list chunk) : visitor :=
  {| file := file v; types_ := types_ v; in_ := in_ v; added := a; fixed := fixed v |}.

Definition set_fixed (v : visitor) (f : bool) : visitor :=
  {| file := file v; types_ := types_ v; in_ := in_ v; added := added v; fixed := f |}.

Definition set_in (v : visitor) (i : option (list byte)) : visitor :=
  {| file := file v; types_ := types_ v; in_ := i; added := added v; fixed := fixed v |}.

(** [func assertStructType(typ types.Type)]: the struct, if there is one. *)
Definition assertStructType (typ : types.GoType) : option types.StructT :=
  let typ := match typ with types.Pointer p => p | _ => typ end in
  let typ := match typ with types.Named _ u => u | _ => typ end in
  match typ with
  | types.Struct s => Some s
  | _ => None
  end.

(** [func (v *visitor) writeAfter(pos token.Pos, s string)] *)
Definition writeAfter (v : visitor) (pos : Z) (s : string) : visitor :=
  set_added v (added v ++ [{| offset := token.Offset (file v) pos; b := bytes_of s |}]).

(** The loop [for i := 0; i < s.NumFields(); i++] of [Visit], from index [i]
    with [n] iterations left.  [lit.Elts[i]] and [s.Field(i)] panic out of
    range: [None]. *)
Fixpoint write_fields (v : visitor) (elts : list ast.Node) (s : types.StructT)
    (i n : nat) : option visitor :=
  match n with
  | O => Some v
  | S n' =>
      e ← elts !! i;
      f ← types.Field s i;
      write_fields (writeAfter v (ast.Pos e) (types.Name f +:+ ": "%string)) elts s (S i) n'
  end.

(** [func (v *visitor) Visit(node ast.Node) ast.Visitor].  The visitor is
    mutated in place and returned; here the new state is returned.  [None]
    as a node is the [nil] that [ast.Walk] passes after a node's children;
    [None] as a result is a run-time panic. *)
Definition Visit (v : visitor) (node : option ast.Node) : option visitor :=
  match node with
  | Some (ast.CompositeLit id _ _ elts) =>
      match types_ v !! id with
      | None => Some v
      | Some typ =>
          match assertStructType (types.Type_ typ) with
          | None => Some v
          | Some s =>
              if decide (types.NumFields s = 0%nat) then Some v
              else if decide (length elts ≠ types.NumFields s) then Some v
              else
                match (if decide (0 < length elts)%nat
                       then ast.isKeyValueExpr <$> elts !! 0%nat
                       else Some false) with
                | None => None
                | Some true => Some v
                | Some false =>
                    v' ← (match in_ v with
                           | Some _ => write_fields v elts s 0 (types.NumFields s)
                           | None => Some v
                           end);
                    Some (set_fixed v' true)
                end
          end
      end
  | _ => Some v
  end.

(** [ast.Walk(v, node)]: visit the node, then its children in order, then
    [v.Visit(nil)].  [Visit] never returns a nil visitor, so the walk always
    descends. *)
Fixpoint Walk (v : visitor) (node : ast.Node) : option visitor :=
  v ← Visit v (Some node);
  v ← match node with
       | ast.CompositeLit _ ty _ elts =>
           v ← match ty with Some t => Walk v t | None => Some v end;
           (fix walkList (v : visitor) (l : list ast.Node) : option visitor :=
              match l with
              | [] => Some v
              | x :: l' => v ← Walk v x; walkList v l'
              end) v elts
       | ast.KeyValueExpr k val => v ← Walk v k; Walk v val
       | ast.OtherNode _ cs =>
           (fix walkList (v : visitor) (l : list ast.Node) : option visitor :=
              match l with
              | [] => Some v
              | x :: l' => v ← Walk v x; walkList v l'
              end) v cs
       end;
  Visit v None.

(** The children loop of [ast.Walk], on its own. *)
Fixpoint walkList (v : visitor) (l : list ast.Node) : option visitor :=
  match l with
  | [] => Some v
  | x :: l' => v ← Walk v x; walkList v l'
  end.

(** ** The patch applier *)

(** The slice expression [s[lo:hi]]; out of range it panics: [None].  The
    capacity of [s] is taken to be its length. *)
Definition slice (s : list byte) (lo hi : Z) : option (list byte) :=
  if decide (0 ≤ lo ∧ lo ≤ hi ∧ hi ≤ Z.of_nat (length s))
  then Some (take (Z.to_nat (hi - lo)) (drop (Z.to_nat lo) s))
  else None.

(** The loop of [out]: [cur] is the local [offset], [acc] the local [out]. *)
Fixpoint out_loop (inp : list byte) (acc : list byte) (cur : Z) (cs : list chunk)
    : option (list byte) :=
  match cs with
  | [] =>
      rest ← slice inp cur (Z.of_nat (length inp));
      Some (acc ++ rest)
  | c :: cs' =>
      span ← slice inp cur (offset c);
      out_loop inp ((acc ++ span) ++ b c) (offset c) cs'
  end.

(** [func (v *visitor) out() []byte].  [sort_Slice] stands for
    [sort.Slice(v.added, less)] with [less] comparing offsets; a nil [v.in]
    is the empty slice. *)
Definition out (sort_Slice : list chunk -> list chunk) (v : visitor) : option (list byte) :=
  out_loop (default [] (in_ v)) [] 0 (sort_Slice (added v)).

(** ** The process: its world and its collaborators *)

(** A Go [error]: a [scanner.ErrorList] (the messages of its entries) or
    any other error (its message). *)
Inductive error : Type :=
| ErrorList (errs : list string)
| ErrorString (msg : string).

(** A result with an error: [(x, nil)] or [(_, err)]. *)
Abbreviation Res A := (A + error)%type.

Definition res_map {A B} (f : A -> B) (r : Res A) : Res B :=
  match r with
  | inl a => inl (f a)
  | inr err => inr err
  end.

Definition res_bind {A B} (f : A -> Res B) (r : Res A) : Res B :=
  match r with
  | inl a => f a
  | inr err => inr err
  end.

(** The [io.Writer] handed to [fixFile]: [os.Stdout], or the
    [bytes.Buffer] that [main] allocates for the current path. *)
Inductive Writer : Type := Stdout | Buffer.

(** The [io.Reader] handed to [fixFile]: [os.Stdin]. *)
Inductive Reader : Type := Stdin.

(** The calls the program makes to its collaborators, as they are logged
    in the world. *)
Inductive Call : Type :=
| CallAbs (path : string)
| CallParseDir (dir : string)
| CallParseFile
| CallNewPackage
| CallGetwd
| CallCheck
| CallReadFile (path : string)
| CallFormat
| CallWriteFile (path : string).

(** What the process can observe and change. *)
Record World : Type := {
  fs : gmap string (list byte);
  stdin : list byte;
  stdout : list byte;
  stderr : list byte;
  buf : list byte;
  calls : list Call
}.

(** The collaborators.  [os_resolve] is the file a path names for the
    operating system; files are stored under that name. *)
Record Env : Type := {
  filepath_Abs : string -> Res string;
  filepath_Dir : string -> string;
  filepath_Clean : string -> string;
  os_Getwd : Res string;
  os_resolve : string -> string;
  parser_ParseDir : gmap string (list byte) -> string -> Res (list (string * ast.Package));
  parser_ParseFile : list byte -> Res ast.File;
  ast_NewPackage : ast.File -> Res ast.Package;
  types_Check : string -> list ast.File -> gmap nat types.TypeAndValue * option error;
  format_Source : list byte -> Res (list byte);
  write_error : gmap string (list byte) -> string -> option error;
  sort_Slice : list chunk -> list chunk
}.

(** The environment whose type checker records the same types and
    reports the errors [err]. *)
Definition with_check_error (E : Env) (err : string -> list ast.File -> option error) : Env :=
  {| filepath_Abs := filepath_Abs E;
     filepath_Dir := filepath_Dir E;
     filepath_Clean := filepath_Clean E;
     os_Getwd := os_Getwd E;
     os_resolve := os_resolve E;
     parser_ParseDir := parser_ParseDir E;
     parser_ParseFile := parser_ParseFile E;
     ast_NewPackage := ast_NewPackage E;
     types_Check := fun cwd files => ((types_Check E cwd files).1, err cwd files);
     format_Source := format_Source E;
     write_error := write_error E;
     sort_Slice := sort_Slice E |}.

(** How a computation ends: it returns, the process exits with a status,
    or it panics. *)
Inductive Outcome (A : Type) : Type :=
| Ret (a : A)
| Exit (code : Z)
| Panic.
Arguments Ret {A} a.
Arguments Exit {A} code.
Arguments Panic {A}.

Definition M (A : Type) : Type := World -> Outcome A * World.

#[global] Instance M_ret : MRet M := fun A a w => (Ret a, w).

#[global] Instance M_bind : MBind M := fun A B f m w =>
  match m w with
  | (Ret a, w') => f a w'
  | (Exit c, w') => (Exit c, w')
  | (Panic, w') => (Panic, w')
  end.

(** [os.Exit(code)] *)
Definition os_Exit {A} (code : Z) : M A := fun w => (Exit code, w).

(** A panic of the Go run time inside pure code. *)
Definition or_panic {A} (o : option A) : M A := fun w =>
  match o with
  | Some a => (Ret a, w)
  | None => (Panic, w)
  end.

Definition log (c : Call) : M unit := fun w =>
  (Ret (), {| fs := fs w; stdin := stdin w; stdout := stdout w; stderr := stderr w;
              buf := buf w; calls := calls w ++ [c] |}).

Definition write_stdout (bs : list byte) : M unit := fun w =>
  (Ret (), {| fs := fs w; stdin := stdin w; stdout := stdout w ++ bs; stderr := stderr w;
              buf := buf w; calls := calls w |}).

Definition write_stderr (bs : list byte) : M unit := fun w =>
  (Ret (), {| fs := fs w; stdin := stdin w; stdout := stdout w; stderr := stderr w ++ bs;
              buf := buf w; calls := calls w |}).

Definition set_buf (bs : list byte) : M unit := fun w =>
  (Ret (), {| fs := fs w; stdin := stdin w; stdout := stdout w; stderr := stderr w;
              buf := bs; calls := calls w |}).

Definition set_fs (f : gmap string (list byte)) : M unit := fun w =>
  (Ret (), {| fs := f; stdin := stdin w; stdout := stdout w; stderr := stderr w;
              buf := buf w; calls := calls w |}).

Definition get_world : M World := fun w => (Ret w, w).

(** The line feed. *)
Definition nl : string := String (Ascii.ascii_of_nat 10) EmptyString.

(** [fmt.Println(s)] and [fmt.Fprintln(os.Stderr, s)] *)
Definition fmt_Println (s : string) : M unit := write_stdout (bytes_of (s +:+ nl)).

Definition fmt_Fprintln_Stderr (s : string) : M unit := write_stderr (bytes_of (s +:+ nl)).

(** [io.Copy(w, bytes.NewReader(out))].  A [bytes.Buffer] accepts every
    write; a write to [os.Stdout] is taken to succeed. *)
Definition io_Copy (w : Writer) (bs : list byte) : M unit :=
  match w with
  | Stdout => write_stdout bs
  | Buffer => wd ← get_world; set_buf (buf wd ++ bs)
  end.

(** [ioutil.ReadFile(path)]; no file has the empty path. *)
Definition ioutil_ReadFile (E : Env) (path : string) : M (Res (list byte)) :=
  _ ← log (CallReadFile path);
  w ← get_world;
  mret (if decide (path = ""%string)
        then inr (ErrorString "open : no such file or directory")
        else match fs w !! os_resolve E path with
             | Some d => inl d
             | None => inr (ErrorString ("open " +:+ path +:+ ": no such file or directory"))
             end).

(** [ioutil.WriteFile(path, data, 0655)].  [write_error] tells whether the
    write fails; a write that fails is taken to leave the file as it was. *)
Definition ioutil_WriteFile (E : Env) (path : string) (data : list byte) : M (option error) :=
  _ ← log (CallWriteFile path);
  w ← get_world;
  match write_error E (fs w) path with
  | Some err => mret (Some err)
  | None => _ ← set_fs (<[os_resolve E path := data]> (fs w)); mret None
  end.

(** [func reportErrs(errs ...error)] *)
Definition reportErr (err : error) : M unit :=
  match err with
  | ErrorList errs => foldr (fun e k => _ ← fmt_Fprintln_Stderr e; k) (mret ()) errs
  | ErrorString msg => fmt_Fprintln_Stderr msg
  end.

Definition reportErrs (errs : list error) : M unit :=
  foldr (fun e k => _ ← reportErr e; k) (mret ()) errs.

(** [func findPkgForFile(fset, pkgs, path)] *)
Definition findPkgForFile (E : Env) (pkgs : list (string * ast.Package)) (path : string)
    : option (ast.Package * ast.File) :=
  list_find (fun pf : ast.Package * (string * ast.File) => pf.2.1 = filepath_Clean E path)
            (pkgs ≫= fun p => (fun f => (p.2, f)) <$> ast.Files p.2)
  ≫= fun r => Some (r.2.1, r.2.2.2).

(** [func findPkgForStdinFile(fset, pkgs, stdinFile)] *)
Definition findPkgForStdinFile (pkgs : list (string * ast.Package)) (stdinFile : ast.File)
    : option ast.Package :=
  list_find (fun p : string * ast.Package => p.1 = ast.Name stdinFile) pkgs
  ≫= fun r => Some r.2.2.

(** In [fixFile], [if err != nil { return false, err }]. *)
Definition try_ {A} (m : M (Res A)) (k : A -> M (bool * option error))
    : M (bool * option error) :=
  r ← m;
  match r with
  | inl a => k a
  | inr err => mret (false, Some err)
  end.

Notation "x ←? m ; k" := (try_ m (fun x => k))
  (at level 20, m at level 100, k at level 200, only parsing).

(** [func fixFile(w io.Writer, r io.Reader, path string) (fixed bool, err error)] *)
Definition fixFile (E : Env) (w : option Writer) (r : option Reader) (path : string)
    : M (bool * option error) :=
  let dir := if decide (path ≠ ""%string) then filepath_Dir E path else "."%string in
  pkgs ←? (_ ← log (CallParseDir dir); wd ← get_world;
           mret (parser_ParseDir E (fs wd) dir));
  sel ←? (if decide (path = ""%string) then
            src ← match r with
                   | Some Stdin => wd ← get_world; mret (inl (stdin wd))
                   | None => ioutil_ReadFile E "stdin.go"
                   end;
            _ ← log CallParseFile;
            match res_bind (parser_ParseFile E) src with
            | inr err => mret (inr err)
            | inl file =>
                match findPkgForStdinFile pkgs file with
                | Some pkg => mret (inl (pkg, file))
                | None =>
                    _ ← log CallNewPackage;
                    mret (res_map (fun pkg => (pkg, file)) (ast_NewPackage E file))
                end
            end
          else
            mret (match findPkgForFile E pkgs path with
                  | Some pf => inl pf
                  | None => inr (ErrorString (path +:+ ": not a Go file within a package"))
                  end));
  let pkg := sel.1 in
  let file_ := sel.2 in
  let astFiles := (ast.Files pkg).*2 in
  cwd ←? (_ ← log CallGetwd; mret (os_Getwd E));
  _ ← log CallCheck;
  let info_Types := (types_Check E cwd astFiles).1 in
  let v := {| file := ast.tokFile file_; types_ := info_Types; in_ := None;
              added := []; fixed := false |} in
  v ←? match w with
       | Some _ => d ← ioutil_ReadFile E path; mret (res_map (fun d => set_in v (Some d)) d)
       | None => mret (inl v)
       end;
  v ← or_panic (Walk v (ast.root file_));
  match w with
  | Some wr =>
      o ← or_panic (out (sort_Slice E) v);
      res ←? (_ ← log CallFormat; mret (format_Source E o));
      _ ← io_Copy wr res;
      mret (fixed v, None)
  | None => mret (fixed v, None)
  end.

(** The body of the loop [for _, path := range paths] of [main]. *)
Definition main_path (E : Env) (overwrite list_ : bool) (path : string) : M unit :=
  _ ← (if overwrite then set_buf [] else mret ());
  let w := if overwrite then Some Buffer
           else if negb list_ then Some Stdout else None in
  abs ← (_ ← log (CallAbs path); mret (filepath_Abs E path));
  match abs with
  | inr err => _ ← reportErrs [err]; os_Exit 1
  | inl absPath =>
      r ← fixFile E w None absPath;
      match r.2 with
      | Some err => _ ← reportErrs [err]; os_Exit 1
      | None =>
          _ ← (if r.1 && list_ then fmt_Println path else mret ());
          if overwrite then
            wd ← get_world;
            werr ← ioutil_WriteFile E path (buf wd);
            match werr with
            | Some err => _ ← reportErrs [err]; os_Exit 1
            | None => mret ()
            end
          else mret ()
      end
  end.

(** [func main()], after [flag.Parse()]: [overwrite] is [-w], [list_] is
    [-l], [paths] is [flag.Args()]. *)
Definition main (E : Env) (overwrite list_ : bool) (paths : list string) : M unit :=
  if decide (length paths = 0%nat) then
    if overwrite then
      _ ← fmt_Fprintln_Stderr "can't use -w on stdin";
      os_Exit 1
    else
      let w := if negb list_ then Some Stdout else None in
      r ← fixFile E w (Some Stdin) "";
      match r.2 with
      | Some err => _ ← reportErrs [err]; os_Exit 1
      | None => if r.1 && list_ then fmt_Println "<standard input>" else mret ()
      end
  else
    foldr (fun path k => _ ← main_path E overwrite list_ path; k) (mret ()) paths.

(** ** The classifier and the builder, as the rules of the design state them *)

(** A field-record shape, reached directly, through one pointer, through
    one named type, or through a pointer to a named type. *)
Definition record_fields (t : types.GoType) : option types.StructT :=
  match t with
  | types.Struct s => Some s
  | types.Pointer (types.Struct s) => Some s
  | types.Named _ (types.Struct s) => Some s
  | types.Pointer (types.Named _ (types.Struct s)) => Some s
  | _ => None
  end.

(** Rules 1 to 5 of the classifier: the field list of an eligible literal,
    [None] for a literal that is not eligible. *)
Definition classify (ty : option types.TypeAndValue) (elts : list ast.Node)
    : option types.StructT :=
  match ty with
  | None => None
  | Some tv =>
      match record_fields (types.Type_ tv) with
      | None => None
      | Some s =>
          if decide (types.NumFields s = 0%nat) then None
          else if decide (length elts = types.NumFields s) then
            match elts with
            | ast.KeyValueExpr _ _ :: _ => None
            | _ => Some s
            end
          else None
      end
  end.

(** One Edit per element: at the element's start, the field's name and
    [": "]. *)
Definition edit_for (tf : token.File) (e : ast.Node) (f : string * types.GoType) : chunk :=
  {| offset := token.Offset tf (ast.Pos e); b := bytes_of (types.Name f +:+ ": "%string) |}.

Definition edits_for (tf : token.File) (elts : list ast.Node) (s : types.StructT)
    : list chunk :=
  zip_with (edit_for tf) elts s.

(** The composite literals of a tree, in the order [ast.Walk] reaches
    them, each with its identity and its elements. *)
Fixpoint lits (n : ast.Node) : list (nat * list ast.Node) :=
  match n with
  | ast.CompositeLit id ty _ elts =>
      (id, elts)
        :: (match ty with Some t => lits t | None => [] end)
        ++ (fix go (l : list ast.Node) : list (nat * list ast.Node) :=
              match l with
              | [] => []
              | x :: l' => lits x ++ go l'
              end) elts
  | ast.KeyValueExpr k v => lits k ++ lits v
  | ast.OtherNode _ cs =>
      (fix go (l : list ast.Node) : list (nat * list ast.Node) :=
         match l with
         | [] => []
         | x :: l' => lits x ++ go l'
         end) cs
  end.

Definition lits_list (l : list ast.Node) : list (nat * list ast.Node) :=
  flat_map lits l.

Definition lit_fields (tm : gmap nat types.TypeAndValue) (l : nat * list ast.Node)
    : option types.StructT :=
  classify (tm !! l.1) l.2.

Definition lit_eligible (tm : gmap nat types.TypeAndValue) (l : nat * list ast.Node) : bool :=
  bool_decide (is_Some (lit_fields tm l)).

Definition lit_edits (tf : token.File) (tm : gmap nat types.TypeAndValue)
    (l : nat * list ast.Node) : list chunk :=
  match lit_fields tm l with
  | Some s => edits_for tf l.2 s
  | None => []
  end.

(** The visitor after it has met the literals [ls]: their Edits appended
    when input bytes are held, the flag raised if one was eligible. *)
Definition after_lits (v : visitor) (ls : list (nat * list ast.Node)) : visitor :=
  {| file := file v; types_ := types_ v; in_ := in_ v;
     added := added v ++ (match in_ v with
                          | Some _ => flat_map (lit_edits (file v) (types_ v)) ls
                          | None => []
                          end);
     fixed := fixed v || existsb (lit_eligible (types_ v)) ls |}.

(** ** The patch applier, as the design states it *)

Definition offset_le (c1 c2 : chunk) : Prop := offset c1 ≤ offset c2.

#[global] Instance offset_le_dec : RelDecision offset_le :=
  fun c1 c2 => decide (offset c1 ≤ offset c2).

(** What [sort.Slice] promises for the comparison of [out]: a rearrangement
    in ascending offset order (it need not be stable). *)
Definition sorts_by_offset (sort : list chunk -> list chunk) : Prop :=
  forall l, Sorted offset_le (sort l) ∧ sort l ≡ₚ l.

(** The scan of the applier with its cursor: the original bytes from the
    cursor up to the Edit's offset, the Edit's text, the cursor moved to the
    offset; after the last Edit, the original bytes from the cursor on. *)
Fixpoint apply_scan (orig : list byte) (cursor : nat) (edits : list chunk) : list byte :=
  match edits with
  | [] => drop cursor orig
  | e :: rest =>
      take (Z.to_nat (offset e) - cursor) (drop cursor orig)
        ++ b e ++ apply_scan orig (Z.to_nat (offset e)) rest
  end.

Definition apply_edits (sort : list chunk -> list chunk) (orig : list byte)
    (edits : list chunk) : list byte :=
  apply_scan orig 0 (sort edits).

(** Insertion of a text before the byte at an offset, nothing deleted. *)
Definition insert_at (off : nat) (text : list byte) (l : list byte) : list byte :=
  take off l ++ text ++ drop off l.

(** The original with every Edit of an ascending list inserted at its
    offset of the original: the last Edit is inserted first, so the offsets
    before it are still those of the original. *)
Definition with_insertions (orig : list byte) (edits : list chunk) : list byte :=
  foldr (fun e acc => insert_at (Z.to_nat (offset e)) (b e) acc) orig edits.

Definition in_range (orig : list byte) (c : chunk) : Prop :=
  0 ≤ offset c ≤ Z.of_nat (length orig).

(** ** The tree of a patched text *)


(** ** The two phases of [fixFile] *)

(** Up to and including the type check: the file to walk and the types
    recorded for it.  This phase does not look at the writer. *)
Definition fixFile_resolve (E : Env) (r : option Reader) (path : string)
    : M (Res (ast.File * gmap nat types.TypeAndValue)) :=
  let dir := if decide (path ≠ ""%string) then filepath_Dir E path else "."%string in
  pkgs ← (_ ← log (CallParseDir dir); wd ← get_world;
          mret (parser_ParseDir E (fs wd) dir));
  match pkgs with
  | inr err => mret (inr err)
  | inl pkgs =>
      sel ← (if decide (path = ""%string) then
               src ← match r with
                      | Some Stdin => wd ← get_world; mret (inl (stdin wd))
                      | None => ioutil_ReadFile E "stdin.go"
                      end;
               _ ← log CallParseFile;
               match res_bind (parser_ParseFile E) src with
               | inr err => mret (inr err)
               | inl file =>
                   match findPkgForStdinFile pkgs file with
                   | Some pkg => mret (inl (pkg, file))
                   | None =>
                       _ ← log CallNewPackage;
                       mret (res_map (fun pkg => (pkg, file)) (ast_NewPackage E file))
                   end
               end
             else
               mret (match findPkgForFile E pkgs path with
                     | Some pf => inl pf
                     | None => inr (ErrorString (path +:+ ": not a Go file within a package"))
                     end));
      match sel with
      | inr err => mret (inr err)
      | inl sel =>
          cwd ← (_ ← log CallGetwd; mret (os_Getwd E));
          match cwd with
          | inr err => mret (inr err)
          | inl cwd =>
              _ ← log CallCheck;
              mret (inl (sel.2, (types_Check E cwd (ast.Files sel.1).*2).1))
          end
      end
  end.

(** From the construction of the visitor on: read, walk, patch, format,
    write. *)
Definition fixFile_emit (E : Env) (w : option Writer) (path : string)
    (file_ : ast.File) (tm : gmap nat types.TypeAndValue) : M (bool * option error) :=
  let v := {| file := ast.tokFile file_; types_ := tm; in_ := None;
              added := []; fixed := false |} in
  v ←? match w with
       | Some _ => d ← ioutil_ReadFile E path; mret (res_map (fun d => set_in v (Some d)) d)
       | None => mret (inl v)
       end;
  v ← or_panic (Walk v (ast.root file_));
  match w with
  | Some wr =>
      o ← or_panic (out (sort_Slice E) v);
      res ←? (_ ← log CallFormat; mret (format_Source E o));
      _ ← io_Copy wr res;
      mret (fixed v, None)
  | None => mret (fixed v, None)
  end.

(** ** The second run *)




(** ** A small unit, for the examples *)

Module Demo.

(** A file with one unkeyed literal, not in canonical layout. *)
Definition src_unkeyed : string :=
  "package p" +:+ nl +:+ nl +:+ "type T struct{ X, Y int }" +:+ nl +:+ nl +:+ nl
    +:+ "var t = T{1,2}" +:+ nl.

(** The same text with the two insertions and nothing else. *)
Definition src_patched : string :=
  "package p" +:+ nl +:+ nl +:+ "type T struct{ X, Y int }" +:+ nl +:+ nl +:+ nl
    +:+ "var t = T{X: 1,Y: 2}" +:+ nl.

(** What gofmt prints for [src_patched]. *)
Definition src_keyed : string :=
  "package p" +:+ nl +:+ nl +:+ "type T struct{ X, Y int }" +:+ nl +:+ nl
    +:+ "var t = T{X: 1, Y: 2}" +:+ nl.

(** A file without literals, not in canonical layout, and what gofmt
    prints for it. *)
Definition src_plain : string :=
  "package p" +:+ nl +:+ nl +:+ nl +:+ "var x = 1" +:+ nl.

Definition src_plain_fmt : string :=
  "package p" +:+ nl +:+ nl +:+ "var x = 1" +:+ nl.

(** A unit for standard input: it names no predeclared identifier, so
    go/ast can build its package on its own. *)
Definition src_stdin : string :=
  "package q" +:+ nl +:+ nl +:+ "type E struct{}" +:+ nl +:+ nl
    +:+ "type T struct{ X, Y E }" +:+ nl +:+ nl +:+ "var t = T{E{}, E{}}" +:+ nl.

(** An identifier or a basic literal. *)
Definition leaf (p : Z) : ast.Node := ast.OtherNode p [].

(** [type T struct{ X, Y int }] at offset 11: declaration, type spec,
    name, struct type, field list, field, names and type. *)
Definition decl_T : ast.Node :=
  ast.OtherNode 12 [ast.OtherNode 17 [leaf 17;
    ast.OtherNode 19 [ast.OtherNode 25 [ast.OtherNode 27 [leaf 27; leaf 30; leaf 32]]]]].

(** The trees go/parser builds; a position is an offset plus the base 1
    of the only file of the file set. *)
Definition tree_unkeyed : ast.Node :=
  ast.OtherNode 1 [leaf 9; decl_T;
    ast.OtherNode 40 [ast.OtherNode 44 [leaf 44;
      ast.CompositeLit 0 (Some (leaf 48)) 49 [leaf 50; leaf 52]]]].

Definition tree_keyed : ast.Node :=
  ast.OtherNode 1 [leaf 9; decl_T;
    ast.OtherNode 39 [ast.OtherNode 43 [leaf 43;
      ast.CompositeLit 0 (Some (leaf 47)) 48
        [ast.KeyValueExpr (leaf 49) (leaf 52); ast.KeyValueExpr (leaf 55) (leaf 58)]]]].

Definition tree_plain : ast.Node :=
  ast.OtherNode 1 [leaf 9; ast.OtherNode 13 [ast.OtherNode 17 [leaf 17; leaf 21]]].

Definition tree_plain_fmt : ast.Node :=
  ast.OtherNode 1 [leaf 9; ast.OtherNode 12 [ast.OtherNode 16 [leaf 16; leaf 20]]].

(** [src_stdin]: the two type declarations, and the literal of [T]
    whose elements are two literals of [E]. *)
Definition tree_stdin : ast.Node :=
  ast.OtherNode 1 [leaf 9;
    ast.OtherNode 12 [ast.OtherNode 17 [leaf 17; ast.OtherNode 19 [ast.OtherNode 25 []]]];
    ast.OtherNode 29 [ast.OtherNode 34 [leaf 34;
      ast.OtherNode 36 [ast.OtherNode 42 [ast.OtherNode 44 [leaf 44; leaf 47; leaf 49]]]]];
    ast.OtherNode 54 [ast.OtherNode 58 [leaf 58;
      ast.CompositeLit 0 (Some (leaf 62)) 63
        [ast.CompositeLit 1 (Some (leaf 64)) 65 [];
         ast.CompositeLit 2 (Some (leaf 69)) 70 []]]]].

Definition file_of (name : string) (t : ast.Node) : ast.File :=
  {| ast.Name := name; ast.tokFile := {| token.base := 1 |}; ast.root := t |}.

Definition is_text (src : list byte) (s : string) : bool :=
  String.eqb (String.string_of_list_byte src) s.

(** go/parser on the texts above; any other text is refused. *)
Definition parse (src : list byte) : Res ast.File :=
  if is_text src src_unkeyed then inl (file_of "p" tree_unkeyed)
  else if is_text src src_keyed then inl (file_of "p" tree_keyed)
  else if is_text src src_plain then inl (file_of "p" tree_plain)
  else if is_text src src_plain_fmt then inl (file_of "p" tree_plain_fmt)
  else if is_text src src_stdin then inl (file_of "q" tree_stdin)
  else inr (ErrorList ["1:1: expected 'package'"%string]).

(** The directory [/p] holds the one file [/p/a.go]; the current
    directory holds no Go file. *)
Definition parseDir (files : gmap string (list byte)) (dir : string)
    : Res (list (string * ast.Package)) :=
  if String.eqb dir "/p" then
    match files !! "/p/a.go"%string with
    | Some src =>
        res_map (fun f => [("p"%string,
                            {| ast.PkgName := "p"; ast.Files := [("/p/a.go"%string, f)] |})])
                (parse src)
    | None => inl []
    end
  else if String.eqb dir "." then inl []
  else inr (ErrorString ("open " +:+ dir +:+ ": no such file or directory")).

Definition type_T : types.GoType :=
  types.Named "T" (types.Struct [("X"%string, types.Basic "int");
                                 ("Y"%string, types.Basic "int")]).

Definition type_E : types.GoType := types.Named "E" (types.Struct []).

Definition type_T_of_E : types.GoType :=
  types.Named "T" (types.Struct [("X"%string, type_E); ("Y"%string, type_E)]).

(** The types go/types records: in package [p] the literal 0 has type
    [T]; in package [q] the literal 0 has type [T] and the literals 1
    and 2 have type [E]. *)
Definition types_p : gmap nat types.TypeAndValue :=
  {[ 0%nat := {| types.Type_ := type_T |} ]}.

Definition types_q : gmap nat types.TypeAndValue :=
  {[ 0%nat := {| types.Type_ := type_T_of_E |};
     1%nat := {| types.Type_ := type_E |};
     2%nat := {| types.Type_ := type_E |} ]}.

Definition check (cwd : string) (files : list ast.File)
    : gmap nat types.TypeAndValue * option error :=
  match files with
  | f :: _ => if String.eqb (ast.Name f) "q" then (types_q, None) else (types_p, None)
  | [] => (∅, None)
  end.

(** [ast.NewPackage] without importer and universe: the identifiers of
    [q] resolve within the file; [p] names the predeclared [int], which
    is reported as undeclared. *)
Definition newPackage (f : ast.File) : Res ast.Package :=
  if String.eqb (ast.Name f) "q"
  then inl {| ast.PkgName := "q"; ast.Files := [("stdin.go"%string, f)] |}
  else inr (ErrorList ["undeclared name: int"%string]).

(** go/format on the texts above: the texts in canonical layout are
    returned as they are. *)
Definition format (src : list byte) : Res (list byte) :=
  if is_text src src_patched then inl (bytes_of src_keyed)
  else if is_text src src_unkeyed then
    inl (bytes_of ("package p" +:+ nl +:+ nl +:+ "type T struct{ X, Y int }" +:+ nl +:+ nl
                     +:+ "var t = T{1, 2}" +:+ nl))
  else if is_text src src_plain then inl (bytes_of src_plain_fmt)
  else inl src.

Definition sort : list chunk -> list chunk :=
  merge_sort offset_le.

Definition env : Env :=
  {| filepath_Abs := inl;
     filepath_Dir := fun path => if String.eqb path "/p/a.go" then "/p"%string else "."%string;
     filepath_Clean := fun path => path;
     os_Getwd := inl "/w"%string;
     os_resolve := fun path => path;
     parser_ParseDir := parseDir;
     parser_ParseFile := parse;
     ast_NewPackage := newPackage;
     types_Check := check;
     format_Source := format;
     write_error := fun _ _ => None;
     sort_Slice := sort |}.

(** A world whose file [/p/a.go] holds [src] and whose standard input
    holds [input]. *)
Definition world (src input : string) : World :=
  {| fs := {[ "/p/a.go"%string := bytes_of src ]}; stdin := bytes_of input;
     stdout := []; stderr := []; buf := []; calls := [] |}.

(** The world of [main_path] when it calls [fixFile] on [/p/a.go]. *)
Definition world_listed : World :=
  (log (CallAbs "/p/a.go") (world src_unkeyed "")).2.

(** The world of [main_path] in overwrite mode when it calls [fixFile]
    on a file without literals. *)
Definition world_plain : World :=
  {| fs := fs (world src_plain ""); stdin := []; stdout := []; stderr := [];
     buf := []; calls := [CallAbs "/p/a.go"] |}.

Definition visitor_of (i : option (list byte)) : visitor :=
  {| file := {| token.base := 1 |}; types_ := types_p; in_ := i;
     added := []; fixed := false |}.

(** The literal [T{1,2}] of [tree_unkeyed]. *)
Definition lit_elts : list ast.Node := [leaf 50; leaf 52].

Definition lit : ast.Node := ast.CompositeLit 0 (Some (leaf 48)) 49 lit_elts.

(** The visitor after the walk of [tree_unkeyed] with the bytes of
    [src_unkeyed]. *)
Definition visited : visitor :=
  {| file := {| token.base := 1 |}; types_ := types_p;
     in_ := Some (bytes_of src_unkeyed);
     added := [{| offset := 49; b := bytes_of "X: " |};
               {| offset := 51; b := bytes_of "Y: " |}];
     fixed := true |}.

End Demo.

(** ** What [reportErrs] prints, and the file names of a directory *)

(** The lines of one error: one per entry of a [scanner.ErrorList], one
    for any other error. *)
Definition err_lines (err : error) : list byte :=
  match err with
  | ErrorList errs => errs ≫= fun e => bytes_of (e +:+ nl)
  | ErrorString msg => bytes_of (msg +:+ nl)
  end.

(** The keys of the [Files] maps of the packages of a directory. *)
Definition file_names (pkgs : list (string * ast.Package)) : list string :=
  pkgs ≫= fun p => (ast.Files p.2).*1.

(** The loop [for _, path := range paths] of [main]. *)
Definition main_loop (E : Env) (overwrite list_ : bool) (paths : list string) : M unit :=
  foldr (fun path k => _ ← main_path E overwrite list_ path; k) (mret ()) paths.

(** ** Facts about the visitor *)

Lemma lits_CompositeLit id ty lb elts :
  lits (ast.CompositeLit id ty lb elts)
  = (id, elts) :: from_option lits [] ty ++ lits_list elts.
Proof.
  assert (Hgo : forall l, (fix go (l : list ast.Node) : list (nat * list ast.Node) :=
              match l with
              | [] => []
              | x :: l' => lits x ++ go l'
              end) l = lits_list l).
  { induction l as [|x l IH]; simpl; [done|]. by rewrite IH. }
  simpl. rewrite Hgo. by destruct ty.
Qed.

Lemma lits_OtherNode p cs : lits (ast.OtherNode p cs) = lits_list cs.
Proof.
  simpl. induction cs as [|x l IH]; simpl; [done|]. by rewrite IH.
Qed.

Lemma after_lits_nil v : after_lits v [] = v.
Proof.
  destruct v as [tf tm i a f]. unfold after_lits; simpl.
  rewrite orb_false_r. destruct i; by rewrite app_nil_r.
Qed.

Lemma after_lits_app v l1 l2 :
  after_lits (after_lits v l1) l2 = after_lits v (l1 ++ l2).
Proof.
  destruct v as [tf tm i a f]. unfold after_lits; simpl.
  rewrite existsb_app, orb_assoc. f_equal.
  destruct i; rewrite <- app_assoc; [|done].
  by rewrite flat_map_app.
Qed.

Lemma assertStructType_record_fields t : assertStructType t = record_fields t.
Proof.
  destruct t as [|e|n u|s|e|n e|k e|]; try done.
  by destruct e as [|e'|n u|s|e'|n e'|k e'|].
Qed.

Lemma write_fields_zip (elts : list ast.Node) (s : types.StructT) n : forall i v,
  (i + n)%nat = length elts -> length elts = length s ->
  write_fields v elts s i n
  = Some (set_added v (added v ++ edits_for (file v) (drop i elts) (drop i s))).
Proof.
  induction n as [|n IH]; intros i v Hn Hlen; simpl.
  - rewrite !drop_ge by lia. unfold edits_for; simpl.
    rewrite app_nil_r. by destruct v.
  - destruct (lookup_lt_is_Some_2 elts i) as [e He]; [lia|].
    destruct (lookup_lt_is_Some_2 s i) as [f Hf]; [lia|].
    unfold types.Field. rewrite He; simpl. rewrite Hf; simpl.
    rewrite IH by (simpl; lia).
    rewrite (drop_S _ _ _ He), (drop_S _ _ _ Hf).
    unfold edits_for, writeAfter, set_added; simpl.
    by rewrite <- app_assoc.
Qed.

Local Arguments write_fields : simpl never.
Local Arguments edits_for : simpl never.

Lemma Visit_nil v : Visit v None = Some v.
Proof. done. Qed.

Lemma Visit_KeyValueExpr v k val : Visit v (Some (ast.KeyValueExpr k val)) = Some v.
Proof. done. Qed.

Lemma Visit_OtherNode v p cs : Visit v (Some (ast.OtherNode p cs)) = Some v.
Proof. done. Qed.

(** [Visit] at a literal does what the classifier and the builder say, and
    never panics. *)
Lemma Visit_CompositeLit v id ty lb elts :
  Visit v (Some (ast.CompositeLit id ty lb elts)) = Some (after_lits v [(id, elts)]).
Proof.
  unfold Visit, after_lits, lit_eligible, lit_edits, lit_fields, classify; simpl.
  destruct (types_ v !! id) as [tv|] eqn:Htv; simpl;
    [|rewrite orb_false_r; destruct v as [? ? [] ? ?]; simpl; by rewrite app_nil_r].
  rewrite assertStructType_record_fields.
  destruct (record_fields (types.Type_ tv)) as [s|]; simpl;
    [|rewrite orb_false_r; destruct v as [? ? [] ? ?]; simpl; by rewrite app_nil_r].
  destruct (decide (types.NumFields s = 0%nat)) as [Hz|Hz]; simpl;
    [rewrite orb_false_r; destruct v as [? ? [] ? ?]; simpl; by rewrite app_nil_r|].
  destruct (decide (length elts ≠ types.NumFields s)) as [Hne|Heq].
  { rewrite decide_False by done. simpl.
    rewrite orb_false_r; destruct v as [? ? [] ? ?]; simpl; by rewrite app_nil_r. }
  assert (Hlen : length elts = types.NumFields s) by (destruct (decide (length elts = types.NumFields s)); [done|contradiction]).
  rewrite (decide_True _ _ Hlen).
  rewrite decide_True by (unfold types.NumFields in *; lia).
  destruct elts as [|e elts']; [simpl in Hlen; congruence|].
  assert (Hbuild :
    (match in_ v with
     | Some _ => write_fields v (e :: elts') s 0 (types.NumFields s)
     | None => Some v
     end ≫= (λ v' : visitor, Some (set_fixed v' true)))
    = Some {| file := file v; types_ := types_ v; in_ := in_ v;
              added := added v ++ match in_ v with
                                  | Some _ => edits_for (file v) (e :: elts') s ++ []
                                  | None => []
                                  end;
              fixed := fixed v || true |}).
  { destruct (in_ v) eqn:Hin.
    - rewrite write_fields_zip by (simpl in *; unfold types.NumFields in *; lia).
      rewrite !drop_0, app_nil_r, orb_true_r.
      destruct v; simpl in *; by subst.
    - simpl. rewrite app_nil_r, orb_true_r.
      destruct v; simpl in *; by subst. }
  destruct e as [lid lty llb lelts|k val|p cs]; cbn [lookup list_lookup fmap option_fmap option_map ast.isKeyValueExpr bool_decide decide_rel is_Some_dec fst snd flat_map existsb].
  - apply Hbuild.
  - rewrite orb_false_r; destruct v as [? ? [] ? ?]; simpl; by rewrite app_nil_r.
  - apply Hbuild.
Qed.

(** The walk meets every literal of the tree, once, in order, and never
    panics. *)
Lemma Walk_lits n : forall v, Walk v n = Some (after_lits v (lits n)).
Proof.
  induction n as [id ty lb elts IHty IHelts|k val IHk IHval|p cs IHcs]
    using Node_nested_ind; intros v.
  - assert (Hlist : forall v, walkList v elts = Some (after_lits v (lits_list elts))).
    { clear -IHelts. induction IHelts as [|x l Hx _ IH]; intros v; simpl.
      - by rewrite after_lits_nil.
      - rewrite Hx; simpl. rewrite IH. by rewrite after_lits_app. }
    rewrite lits_CompositeLit.
    change (Walk v (ast.CompositeLit id ty lb elts))
      with (v0 ← Visit v (Some (ast.CompositeLit id ty lb elts));
            v1 ← (v2 ← match ty with Some t => Walk v0 t | None => Some v0 end;
                  walkList v2 elts);
            Visit v1 None).
    rewrite Visit_CompositeLit; simpl.
    destruct ty as [t|]; simpl.
    + rewrite (IHty t eq_refl); simpl. rewrite Hlist; simpl.
      by rewrite !after_lits_app.
    + rewrite Hlist; simpl. by rewrite !after_lits_app.
  - simpl. rewrite IHk; simpl. rewrite IHval; simpl.
    by rewrite after_lits_app.
  - assert (Hlist : forall v, walkList v cs = Some (after_lits v (lits_list cs))).
    { clear -IHcs. induction IHcs as [|x l Hx _ IH]; intros v; simpl.
      - by rewrite after_lits_nil.
      - rewrite Hx; simpl. rewrite IH. by rewrite after_lits_app. }
    rewrite lits_OtherNode.
    change (Walk v (ast.OtherNode p cs))
      with (v0 ← Visit v (Some (ast.OtherNode p cs));
            v1 ← walkList v0 cs;
            Visit v1 None).
    simpl. rewrite Hlist. done.
Qed.

(** The flag after a walk that started with the flag down. *)
Lemma existsb_lit_eligible tm ls :
  existsb (lit_eligible tm) ls = true
  ↔ ∃ l, l ∈ ls ∧ is_Some (classify (tm !! l.1) l.2).
Proof.
  rewrite existsb_exists. split.
  - intros (l & Hin & Hl). exists l. split; [by apply list_elem_of_In|].
    by apply bool_decide_eq_true in Hl.
  - intros (l & Hin & Hl). exists l. split; [by apply list_elem_of_In|].
    by apply bool_decide_eq_true.
Qed.

(** ** Facts about the patch applier *)

Lemma slice_Some (s : list byte) lo hi :
  0 ≤ lo -> lo ≤ hi -> hi ≤ Z.of_nat (length s) ->
  slice s lo hi = Some (take (Z.to_nat hi - Z.to_nat lo) (drop (Z.to_nat lo) s)).
Proof.
  intros H0 H1 H2. unfold slice. rewrite decide_True by done.
  by rewrite Z2Nat.inj_sub.
Qed.

Lemma slice_inv (s : list byte) lo hi r :
  slice s lo hi = Some r -> 0 ≤ lo ∧ lo ≤ hi ∧ hi ≤ Z.of_nat (length s).
Proof. unfold slice. by case_decide. Qed.

(** The loop of [out] computes the scan whenever every slice is in range. *)
Lemma out_loop_scan inp cs : forall acc cur,
  0 ≤ cur -> cur ≤ Z.of_nat (length inp) ->
  StronglySorted offset_le cs -> Forall (in_range inp) cs ->
  Forall (fun c => cur ≤ offset c) cs ->
  out_loop inp acc cur cs = Some (acc ++ apply_scan inp (Z.to_nat cur) cs).
Proof.
  induction cs as [|c cs IH]; intros acc cur Hcur Hlen Hsorted Hrange Hge; simpl.
  - rewrite slice_Some by lia. simpl.
    rewrite Nat2Z.id, take_ge; [done|]. rewrite length_drop. lia.
  - apply StronglySorted_inv in Hsorted as [Hsorted Hhd].
    apply Forall_cons in Hrange as [[Hc0 Hc1] Hrange].
    apply Forall_cons in Hge as [Hc Hge].
    rewrite slice_Some by lia. simpl.
    rewrite IH; [|lia|lia|done|done|by apply (Forall_impl _ _ _ Hhd)].
    by rewrite <- !app_assoc.
Qed.

(** Conversely, when the loop does not panic, the offsets were ascending
    and in range. *)
Lemma out_loop_inv inp cs : forall acc cur o,
  out_loop inp acc cur cs = Some o ->
  0 ≤ cur ∧ cur ≤ Z.of_nat (length inp) ∧ StronglySorted offset_le cs
  ∧ Forall (in_range inp) cs ∧ Forall (fun c => cur ≤ offset c) cs.
Proof.
  induction cs as [|c cs IH]; intros acc cur o Ho; simpl in Ho.
  - destruct (slice inp cur (Z.of_nat (length inp))) as [r|] eqn:Hs; [|done].
    apply slice_inv in Hs. repeat split; try constructor; lia.
  - destruct (slice inp cur (offset c)) as [r|] eqn:Hs; [|done]. simpl in Ho.
    apply slice_inv in Hs as (H0 & H1 & H2).
    apply IH in Ho as (H3 & H4 & Hsorted & Hrange & Hge).
    repeat split; try lia.
    + constructor; [done|]. by apply (Forall_impl _ _ _ Hge).
    + constructor; [split; lia|done].
    + constructor; [done|]. apply (Forall_impl _ _ _ Hge). intros; lia.
Qed.

(** The scan from a cursor, after the original bytes before the cursor, is
    the original with the insertions. *)
Lemma scan_with_insertions orig edits : forall cursor,
  StronglySorted offset_le edits -> Forall (in_range orig) edits ->
  Forall (fun c => Z.of_nat cursor ≤ offset c) edits ->
  (cursor ≤ length orig)%nat ->
  take cursor orig ++ apply_scan orig cursor edits = with_insertions orig edits.
Proof.
  induction edits as [|e edits IH]; intros cursor Hsorted Hrange Hge Hlen; simpl.
  - apply take_drop.
  - apply StronglySorted_inv in Hsorted as [Hsorted Hhd].
    apply Forall_cons in Hrange as [[He0 He1] Hrange].
    apply Forall_cons in Hge as [He Hge].
    rewrite <- (IH (Z.to_nat (offset e))); [|done|done| |lia].
    2:{ apply (Forall_impl _ _ _ Hhd). intros c Hc. unfold offset_le in Hc. lia. }
    unfold insert_at.
    assert (Hl : length (take (Z.to_nat (offset e)) orig) = Z.to_nat (offset e))
      by (rewrite length_take; lia).
    rewrite take_app_length' by done. rewrite drop_app_length' by done.
    rewrite app_assoc. f_equal.
    rewrite <- (take_drop cursor (take (Z.to_nat (offset e)) orig)).
    rewrite take_take, Nat.min_l by lia. f_equal.
    by rewrite take_drop_commute, Nat.add_comm, Nat.sub_add by lia.
Qed.

Lemma with_insertions_sublist orig edits : orig `sublist_of` with_insertions orig edits.
Proof.
  induction edits as [|e edits IH]; simpl; [done|].
  etrans; [apply IH|]. unfold insert_at.
  set (l := with_insertions orig edits). set (n := Z.to_nat (offset e)).
  rewrite <- (take_drop n l) at 1.
  apply sublist_app; [done|]. by apply sublist_inserts_l.
Qed.

Lemma with_insertions_length orig edits :
  length (with_insertions orig edits)
  = (length orig + sum_list (length ∘ b <$> edits))%nat.
Proof.
  induction edits as [|e edits IH]; simpl; [lia|].
  unfold insert_at. rewrite !length_app, length_take, length_drop.
  fold (with_insertions orig edits). rewrite IH.
  change (list_fmap chunk nat (length ∘ b) edits) with (length ∘ b <$> edits).
  lia.
Qed.

Lemma sorts_by_offset_sorted sort l :
  sorts_by_offset sort -> StronglySorted offset_le (sort l).
Proof.
  intros Hsort. apply Sorted_StronglySorted; [|apply Hsort].
  intros x y z. unfold offset_le. lia.
Qed.

Lemma demo_sort_sorts : sorts_by_offset Demo.sort.
Proof.
  intros l. split.
  - apply Sorted_merge_sort. intros x y. unfold offset_le. lia.
  - apply merge_sort_Permutation.
Qed.

(** [out] does not panic when the offsets are in range. *)
Lemma out_in_range sort v :
  sorts_by_offset sort ->
  Forall (in_range (default [] (in_ v))) (added v) ->
  out sort v = Some (apply_edits sort (default [] (in_ v)) (added v)).
Proof.
  intros Hsort Hrange. unfold out, apply_edits.
  assert (Hr : Forall (in_range (default [] (in_ v))) (sort (added v))).
  { destruct (Hsort (added v)) as [_ Hp]. by rewrite Hp. }
  rewrite out_loop_scan; [done|lia|lia|by apply sorts_by_offset_sorted|done|].
  apply (Forall_impl _ _ _ Hr). by intros c [? ?].
Qed.

(** When [out] does not panic, its result is the original with the
    insertions. *)
Lemma out_with_insertions sort v o :
  out sort v = Some o ->
  o = with_insertions (default [] (in_ v)) (sort (added v))
  ∧ Forall (in_range (default [] (in_ v))) (sort (added v)).
Proof.
  unfold out. intros Ho.
  pose proof (out_loop_inv _ _ _ _ _ Ho) as (H0 & H1 & Hsorted & Hrange & Hge).
  rewrite out_loop_scan in Ho by done. simplify_eq/=. split; [|done].
  rewrite <- (scan_with_insertions _ _ 0%nat); [done|done|done|done|lia].
Qed.

(** ** Facts about literals that are not eligible *)

Lemma after_lits_not_eligible v ls :
  Forall (fun l => lit_fields (types_ v) l = None) ls -> after_lits v ls = v.
Proof.
  intros Hls. rewrite <- (after_lits_nil v) at 2. unfold after_lits. f_equal.
  - f_equal. destruct (in_ v) as [inp|]; [|done].
    induction Hls as [|x ls Hl _ IH]; simpl; [done|].
    unfold lit_edits at 1. by rewrite Hl.
  - f_equal. induction Hls as [|x ls Hl _ IH]; simpl; [done|].
    unfold lit_eligible at 1. rewrite Hl. rewrite bool_decide_eq_false_2; [done|].
    by intros [? ?].
Qed.






(** ** Facts about the driver *)

(** [fixFile] is its two phases in sequence. *)
Lemma fixFile_phases E w r path w0 :
  fixFile E w r path w0
  = match fixFile_resolve E r path w0 with
    | (Ret (inl x), w') => fixFile_emit E w path x.1 x.2 w'
    | (Ret (inr err), w') => (Ret (false, Some err), w')
    | (Exit c, w') => (Exit c, w')
    | (Panic, w') => (Panic, w')
    end.
Proof.
  unfold fixFile, fixFile_resolve, fixFile_emit, try_, ioutil_ReadFile.
  unfold mbind, M_bind, mret, M_ret, log, get_world. simpl.
  destruct (parser_ParseDir E (fs w0) _) as [pkgs|err]; [|done].
  destruct (decide (path = ""%string)) as [Hp|Hp].
  - destruct r as [[]|]; simpl.
    + destruct (parser_ParseFile E (stdin w0)) as [f|err]; simpl; [|done].
      destruct (findPkgForStdinFile pkgs f) as [pkg|]; simpl.
      * destruct (os_Getwd E); simpl; done.
      * destruct (ast_NewPackage E f); simpl; [|done].
        destruct (os_Getwd E); simpl; done.
    + destruct (fs w0 !! os_resolve E "stdin.go"%string); simpl; [|done].
      destruct (parser_ParseFile E _) as [f|err]; simpl; [|done].
      destruct (findPkgForStdinFile pkgs f) as [pkg|]; simpl.
      * destruct (os_Getwd E); simpl; done.
      * destruct (ast_NewPackage E f); simpl; [|done].
        destruct (os_Getwd E); simpl; done.
  - destruct (findPkgForFile E pkgs path); simpl; [|done].
    destruct (os_Getwd E); simpl; done.
Qed.

(** The first phase returns, and touches nothing but the log. *)
Lemma fixFile_resolve_frame E r path w0 :
  ∃ x cs, fixFile_resolve E r path w0
          = (Ret x, {| fs := fs w0; stdin := stdin w0; stdout := stdout w0;
                       stderr := stderr w0; buf := buf w0; calls := calls w0 ++ cs |}).
Proof.
  unfold fixFile_resolve, ioutil_ReadFile.
  unfold mbind, M_bind, mret, M_ret, log, get_world. simpl.
  destruct (parser_ParseDir E (fs w0) _) as [pkgs|err];
    [|by eexists _, _; rewrite <- ?app_assoc].
  destruct (decide (path = ""%string)) as [Hp|Hp].
  - destruct r as [[]|]; simpl.
    + destruct (parser_ParseFile E (stdin w0)) as [f|err]; simpl;
        [|by eexists _, _; rewrite <- ?app_assoc].
      destruct (findPkgForStdinFile pkgs f) as [pkg|]; simpl.
      * destruct (os_Getwd E); simpl; by eexists _, _; rewrite <- ?app_assoc.
      * destruct (ast_NewPackage E f); simpl;
          [|by eexists _, _; rewrite <- ?app_assoc].
        destruct (os_Getwd E); simpl; by eexists _, _; rewrite <- ?app_assoc.
    + destruct (fs w0 !! os_resolve E "stdin.go"%string); simpl;
        [|by eexists _, _; rewrite <- ?app_assoc].
      destruct (parser_ParseFile E _) as [f|err]; simpl;
        [|by eexists _, _; rewrite <- ?app_assoc].
      destruct (findPkgForStdinFile pkgs f) as [pkg|]; simpl.
      * destruct (os_Getwd E); simpl; by eexists _, _; rewrite <- ?app_assoc.
      * destruct (ast_NewPackage E f); simpl;
          [|by eexists _, _; rewrite <- ?app_assoc].
        destruct (os_Getwd E); simpl; by eexists _, _; rewrite <- ?app_assoc.
  - destruct (findPkgForFile E pkgs path); simpl;
      [|by eexists _, _; rewrite <- ?app_assoc].
    destruct (os_Getwd E); simpl; by eexists _, _; rewrite <- ?app_assoc.
Qed.

(** Without a writer the second phase only walks. *)
Lemma fixFile_emit_None E path f tm w :
  fixFile_emit E None path f tm w
  = (Ret (existsb (lit_eligible tm) (lits (ast.root f)), None), w).
Proof.
  unfold fixFile_emit, try_, mbind, M_bind, mret, M_ret, or_panic. simpl.
  by rewrite Walk_lits.
Qed.

(** With a writer the second phase reads the file, walks, patches,
    formats and writes. *)
Lemma fixFile_emit_Some E wr path f tm w fx w1 :
  fixFile_emit E (Some wr) path f tm w = (Ret (fx, None), w1) ->
  ∃ inp o res,
    path ≠ ""%string
    ∧ fs w !! os_resolve E path = Some inp
    ∧ out (sort_Slice E)
          {| file := ast.tokFile f; types_ := tm; in_ := Some inp;
             added := flat_map (lit_edits (ast.tokFile f) tm) (lits (ast.root f));
             fixed := existsb (lit_eligible tm) (lits (ast.root f)) |} = Some o
    ∧ format_Source E o = inl res
    ∧ fx = existsb (lit_eligible tm) (lits (ast.root f))
    ∧ w1 = {| fs := fs w; stdin := stdin w;
              stdout := match wr with Stdout => stdout w ++ res | Buffer => stdout w end;
              stderr := stderr w;
              buf := match wr with Stdout => buf w | Buffer => buf w ++ res end;
              calls := calls w ++ [CallReadFile path; CallFormat] |}.
Proof.
  unfold fixFile_emit, try_, ioutil_ReadFile, io_Copy.
  unfold mbind, M_bind, mret, M_ret, or_panic, log, get_world. simpl.
  destruct (decide (path = ""%string)) as [Hp|Hp]; simpl; [done|].
  destruct (fs w !! os_resolve E path) as [inp|] eqn:Hinp; simpl; [|done].
  rewrite Walk_lits. unfold after_lits; simpl.
  destruct (out _ _) as [o|] eqn:Ho; simpl; [|done].
  destruct (format_Source E o) as [res|err] eqn:Hres; simpl; [|done].
  intros Heq. exists inp, o, res.
  destruct wr; simpl in Heq; simplify_eq; rewrite <- ?app_assoc; done.
Qed.

Lemma M_bind_eq {A B} (m : M A) (k : A -> M B) w :
  (m ≫= k) w = match m w with
               | (Ret a, w') => k a w'
               | (Exit c, w') => (Exit c, w')
               | (Panic, w') => (Panic, w')
               end.
Proof. done. Qed.

Lemma reportErr_frame err w :
  ∃ bs, reportErr err w
        = (Ret (), {| fs := fs w; stdin := stdin w; stdout := stdout w;
                      stderr := stderr w ++ bs; buf := buf w; calls := calls w |}).
Proof.
  destruct err as [errs|msg]; [|by eexists].
  unfold reportErr. revert w. induction errs as [|e errs IH]; intros w; cbn [foldr].
  - exists []. rewrite app_nil_r. by destruct w.
  - rewrite M_bind_eq. unfold fmt_Fprintln_Stderr at 1, write_stderr.
    destruct (IH {| fs := fs w; stdin := stdin w; stdout := stdout w;
                    stderr := stderr w ++ bytes_of (e +:+ nl);
                    buf := buf w; calls := calls w |}) as [bs Hbs].
    rewrite Hbs. simpl. eexists. by rewrite <- app_assoc.
Qed.

Lemma reportErrs_frame errs w :
  ∃ bs, reportErrs errs w
        = (Ret (), {| fs := fs w; stdin := stdin w; stdout := stdout w;
                      stderr := stderr w ++ bs; buf := buf w; calls := calls w |}).
Proof.
  unfold reportErrs. revert w. induction errs as [|err errs IH]; intros w; cbn [foldr].
  - exists []. rewrite app_nil_r. by destruct w.
  - rewrite M_bind_eq. destruct (reportErr_frame err w) as [bs Hbs]. rewrite Hbs.
    destruct (IH {| fs := fs w; stdin := stdin w; stdout := stdout w;
                    stderr := stderr w ++ bs; buf := buf w; calls := calls w |})
      as [bs' Hbs'].
    rewrite Hbs'. simpl. eexists. by rewrite <- app_assoc.
Qed.

(** ** The classifier and the builder *)

(** C2. A composite literal whose resolved type is not a field-record
    shape (directly, through one pointer, through one named type, or
    through a pointer to a named type), or whose record has no field, or
    whose element count differs from the field count, or whose first
    element is a key-value expression, is left alone: [Visit] returns the
    visitor as it was, with no Edit added and the flag untouched. *)
Theorem C2_ineligible_literal_left_alone
    (v : visitor) id ty lb (elts : list ast.Node) tv :
  types_ v !! id = Some tv ->
  (record_fields (types.Type_ tv) = None
   ∨ ∃ s, record_fields (types.Type_ tv) = Some s
          ∧ (types.NumFields s = 0%nat
             ∨ length elts ≠ types.NumFields s
             ∨ ∃ k val rest, elts = ast.KeyValueExpr k val :: rest)) ->
  Visit v (Some (ast.CompositeLit id ty lb elts)) = Some v.
Proof.
  intros Htv Hcase. rewrite Visit_CompositeLit.
  rewrite after_lits_not_eligible; [done|].
  constructor; [|constructor]. unfold lit_fields, classify; simpl. rewrite Htv.
  destruct Hcase as [Hnone|(s & Hs & Hcase)]; [by rewrite Hnone|]. rewrite Hs.
  destruct Hcase as [Hz|[Hne|(k & val & rest & ->)]].
  - by rewrite decide_True.
  - case_decide; [done|]. by rewrite decide_False.
  - case_decide; [done|]. by case_decide.
Qed.

Lemma C2_witness :
  Visit (Demo.visitor_of None) (Some (ast.CompositeLit 0 None 49 [Demo.leaf 50]))
  = Some (Demo.visitor_of None).
Proof.
  apply (C2_ineligible_literal_left_alone (Demo.visitor_of None) 0%nat None 49
           [Demo.leaf 50] {| types.Type_ := Demo.type_T |}).
  - reflexivity.
  - right. eexists. split; [reflexivity|]. right. left. simpl. lia.
Defined.

(** C3. For an eligible literal, when the visitor holds input bytes,
    [Visit] appends exactly one Edit per element, in element order: the
    i-th Edit is at the offset of the start of the i-th element, and its
    text is the name of the i-th declared field followed by [": "]; the
    flag is raised. *)
Theorem C3_one_edit_per_element
    (v : visitor) id ty lb (elts : list ast.Node) tv (s : types.StructT) inp :
  types_ v !! id = Some tv ->
  record_fields (types.Type_ tv) = Some s ->
  types.NumFields s ≠ 0%nat ->
  length elts = types.NumFields s ->
  (forall e, elts !! 0%nat = Some e -> ast.isKeyValueExpr e = false) ->
  in_ v = Some inp ->
  ∃ new,
    Visit v (Some (ast.CompositeLit id ty lb elts))
    = Some (set_fixed (set_added v (added v ++ new)) true)
    ∧ length new = length elts
    ∧ forall i e, elts !! i = Some e ->
        ∃ f, s !! i = Some f
             ∧ new !! i = Some {| offset := token.Offset (file v) (ast.Pos e);
                                  b := bytes_of (types.Name f +:+ ": "%string) |}.
Proof.
  intros Htv Hs Hz Hlen Hhd Hin. exists (edits_for (file v) elts s).
  assert (Hc : classify (types_ v !! id) elts = Some s).
  { unfold classify. rewrite Htv, Hs. rewrite decide_False by done.
    rewrite decide_True by done. destruct elts as [|e elts']; [done|].
    specialize (Hhd e eq_refl). by destruct e. }
  split; [|split].
  - rewrite Visit_CompositeLit. unfold after_lits, lit_edits, lit_eligible, lit_fields.
    simpl. rewrite Hc, Hin. simpl.
    rewrite app_nil_r, orb_true_r. unfold set_fixed, set_added; simpl. by rewrite Hin.
  - unfold edits_for. rewrite length_zip_with. unfold types.NumFields in Hlen. lia.
  - intros i e He.
    destruct (lookup_lt_is_Some_2 s i) as [f Hf].
    { apply lookup_lt_Some in He. unfold types.NumFields in Hlen. lia. }
    exists f. split; [done|]. unfold edits_for.
    rewrite lookup_zip_with, He. simpl. by rewrite Hf.
Qed.

Lemma C3_witness :
  ∃ new,
    Visit (Demo.visitor_of (Some (bytes_of Demo.src_unkeyed))) (Some Demo.lit)
    = Some (set_fixed (set_added (Demo.visitor_of (Some (bytes_of Demo.src_unkeyed)))
                                 ([] ++ new)) true)
    ∧ length new = 2%nat
    ∧ forall i e, Demo.lit_elts !! i = Some e ->
        ∃ f, [("X"%string, types.Basic "int"); ("Y"%string, types.Basic "int")] !! i = Some f
             ∧ new !! i = Some {| offset := token.Offset {| token.base := 1 |} (ast.Pos e);
                                  b := bytes_of (types.Name f +:+ ": "%string) |}.
Proof.
  apply (C3_one_edit_per_element (Demo.visitor_of (Some (bytes_of Demo.src_unkeyed)))
           0%nat (Some (Demo.leaf 48)) 49 Demo.lit_elts
           {| types.Type_ := Demo.type_T |} _ (bytes_of Demo.src_unkeyed)).
  - reflexivity.
  - reflexivity.
  - simpl. lia.
  - reflexivity.
  - intros e He. simpl in He. injection He as <-. reflexivity.
  - reflexivity.
Defined.

(** ** Idempotence *)







(** The two runs on the small unit: [-w] rewrites the file with the keys,
    and [-l] on the rewritten file lists nothing. *)
Example second_run_lists_nothing :
  let w1 := (main Demo.env true false ["/p/a.go"%string]
               (Demo.world Demo.src_unkeyed "")).2 in
  let r := main Demo.env false true ["/p/a.go"%string] w1 in
  fs w1 !! "/p/a.go"%string = Some (bytes_of Demo.src_keyed)
  ∧ r.1 = Ret ()
  ∧ stdout r.2 = [].
Proof. vm_compute. done. Qed.

(** ** The patch applier *)

(** C5. Given the original bytes and Edits whose offsets lie in the
    original, [out] sorts the Edits by ascending offset and returns the
    result of the scan with a cursor that starts at 0: for each Edit the
    original bytes from the cursor up to the Edit's offset, then the Edit's
    text, with the cursor moved to the Edit's offset and not past it; after
    the last Edit the original bytes from the cursor to the end. *)
Theorem C5_out_is_the_cursor_scan (sort : list chunk -> list chunk) (v : visitor) :
  sorts_by_offset sort ->
  Forall (in_range (default [] (in_ v))) (added v) ->
  out sort v = Some (apply_scan (default [] (in_ v)) 0 (sort (added v)))
  ∧ Sorted offset_le (sort (added v))
  ∧ sort (added v) ≡ₚ added v.
Proof.
  intros Hsort Hrange. split; [by apply out_in_range|]. apply Hsort.
Qed.

Lemma C5_witness :
  out Demo.sort Demo.visited
  = Some (apply_scan (bytes_of Demo.src_unkeyed) 0 (Demo.sort (added Demo.visited)))
  ∧ Sorted offset_le (Demo.sort (added Demo.visited))
  ∧ Demo.sort (added Demo.visited) ≡ₚ added Demo.visited.
Proof.
  apply (C5_out_is_the_cursor_scan Demo.sort Demo.visited).
  - apply demo_sort_sorts.
  - repeat constructor; simpl; lia.
Defined.

Lemma sum_list_Permutation (l k : list nat) : l ≡ₚ k -> sum_list l = sum_list k.
Proof. induction 1; simpl; lia. Qed.

(** ** Byte preservation *)

(** C1 (as amended). Whenever [fixFile] is given a writer and returns
    without error, the buffer that the patch applier built, which is what
    the formatter receives, is the original bytes of the file with only
    the Edits' texts inserted at their offsets, the Edits being those of
    the literals of the file: every original byte is kept, in order, and
    the length grows by the length of the inserted texts.  The bytes
    written are what the formatter returns for that buffer. *)
Theorem C1_patched_buffer_is_original_with_insertions
    E wr r path w0 fx w1 :
  sorts_by_offset (sort_Slice E) ->
  fixFile E (Some wr) r path w0 = (Ret (fx, None), w1) ->
  ∃ f tm w' inp o res,
    fixFile_resolve E r path w0 = (Ret (inl (f, tm)), w')
    ∧ fs w0 !! os_resolve E path = Some inp
    ∧ out (sort_Slice E)
          {| file := ast.tokFile f; types_ := tm; in_ := Some inp;
             added := flat_map (lit_edits (ast.tokFile f) tm) (lits (ast.root f));
             fixed := fx |} = Some o
    ∧ sort_Slice E (flat_map (lit_edits (ast.tokFile f) tm) (lits (ast.root f)))
      ≡ₚ flat_map (lit_edits (ast.tokFile f) tm) (lits (ast.root f))
    ∧ o = with_insertions inp
            (sort_Slice E (flat_map (lit_edits (ast.tokFile f) tm) (lits (ast.root f))))
    ∧ inp `sublist_of` o
    ∧ length o
      = (length inp
         + sum_list (length ∘ b <$> flat_map (lit_edits (ast.tokFile f) tm)
                                             (lits (ast.root f))))%nat
    ∧ format_Source E o = inl res
    ∧ match wr with
      | Stdout => stdout w1 = stdout w0 ++ res
      | Buffer => buf w1 = buf w0 ++ res
      end.
Proof.
  intros Hsort Hrun. rewrite fixFile_phases in Hrun.
  destruct (fixFile_resolve_frame E r path w0) as (x & cs & Hres).
  rewrite Hres in Hrun. destruct x as [[f tm]|err]; [|done]. simpl in Hrun.
  apply fixFile_emit_Some in Hrun as (inp & o & res & Hp & Hinp & Ho & Hfmt & -> & ->).
  eexists f, tm, _, inp, o, res. simpl in *.
  destruct (out_with_insertions _ _ _ Ho) as [Hins _]. simpl in Hins.
  destruct (Hsort (flat_map (lit_edits (ast.tokFile f) tm) (lits (ast.root f))))
    as [_ Hperm].
  split; [exact Hres|]. repeat split; try done.
  - rewrite Hins. apply with_insertions_sublist.
  - rewrite Hins, with_insertions_length. f_equal.
    apply sum_list_Permutation. by rewrite Hperm.
  - by destruct wr.
Qed.

Lemma C1_witness :
  ∃ f tm w' inp o res,
    fixFile_resolve Demo.env None "/p/a.go" (Demo.world Demo.src_unkeyed "")
    = (Ret (inl (f, tm)), w')
    ∧ fs (Demo.world Demo.src_unkeyed "") !! os_resolve Demo.env "/p/a.go" = Some inp
    ∧ out (sort_Slice Demo.env)
          {| file := ast.tokFile f; types_ := tm; in_ := Some inp;
             added := flat_map (lit_edits (ast.tokFile f) tm) (lits (ast.root f));
             fixed := true |} = Some o
    ∧ sort_Slice Demo.env (flat_map (lit_edits (ast.tokFile f) tm) (lits (ast.root f)))
      ≡ₚ flat_map (lit_edits (ast.tokFile f) tm) (lits (ast.root f))
    ∧ o = with_insertions inp
            (sort_Slice Demo.env
               (flat_map (lit_edits (ast.tokFile f) tm) (lits (ast.root f))))
    ∧ inp `sublist_of` o
    ∧ length o
      = (length inp
         + sum_list (length ∘ b <$> flat_map (lit_edits (ast.tokFile f) tm)
                                             (lits (ast.root f))))%nat
    ∧ format_Source Demo.env o = inl res
    ∧ stdout (fixFile Demo.env (Some Stdout) None "/p/a.go"
                (Demo.world Demo.src_unkeyed "")).2
      = stdout (Demo.world Demo.src_unkeyed "") ++ res.
Proof.
  apply (C1_patched_buffer_is_original_with_insertions Demo.env Stdout None
           "/p/a.go" (Demo.world Demo.src_unkeyed "") true
           (fixFile Demo.env (Some Stdout) None "/p/a.go"
              (Demo.world Demo.src_unkeyed "")).2).
  - apply demo_sort_sorts.
  - vm_compute. reflexivity.
Defined.

(** The claim as it stands fails: the bytes written are the formatter's
    rendering of the patched buffer.  For the file [src_unkeyed] the run
    succeeds and prints a text that is not the original with the two
    insertions: a blank line of the original is gone and a space that no
    Edit holds has appeared. *)
Lemma C1_counterexample :
  ∃ w1,
    main Demo.env false false ["/p/a.go"%string] (Demo.world Demo.src_unkeyed "")
    = (Ret (), w1)
    ∧ fs (Demo.world Demo.src_unkeyed "") !! "/p/a.go"%string
      = Some (bytes_of Demo.src_unkeyed)
    ∧ Walk (Demo.visitor_of (Some (bytes_of Demo.src_unkeyed))) Demo.tree_unkeyed
      = Some Demo.visited
    ∧ stdout w1 = bytes_of Demo.src_keyed
    ∧ stdout w1 ≠ with_insertions (bytes_of Demo.src_unkeyed) (added Demo.visited).
Proof.
  eexists. split; [vm_compute; reflexivity|].
  split; [reflexivity|]. split; [vm_compute; reflexivity|].
  split; [reflexivity|]. vm_compute. discriminate.
Qed.

(** ** Unresolved types *)

Lemma flat_map_resolved tf (tm : gmap nat types.TypeAndValue) ls :
  flat_map (lit_edits tf tm) (filter (fun l => is_Some (tm !! l.1)) ls)
  = flat_map (lit_edits tf tm) ls.
Proof.
  induction ls as [|l ls IH]; [done|]. rewrite filter_cons. case_decide as Hl; simpl.
  - by rewrite IH.
  - rewrite IH. unfold lit_edits at 2, lit_fields, classify.
    destruct (tm !! l.1); [|done]. by destruct Hl.
Qed.

(** C6. A literal without recorded type is skipped: [Visit] returns the
    visitor as it was and does not panic.  A walk never panics, and its
    Edits are those of the literals that do have a recorded type, so a
    partially resolved unit still gets those literals keyed.  The errors
    that the type checker reports do not reach the result of [fixFile]. *)
Theorem C6_unresolved_literal_is_skipped
    E (v : visitor) id ty lb (elts : list ast.Node) :
  types_ v !! id = None ->
  Visit v (Some (ast.CompositeLit id ty lb elts)) = Some v
  ∧ (forall n, ∃ v',
       Walk v n = Some v'
       ∧ added v'
         = added v ++ match in_ v with
                      | Some _ =>
                          flat_map (lit_edits (file v) (types_ v))
                            (filter (fun l => is_Some (types_ v !! l.1)) (lits n))
                      | None => []
                      end)
  ∧ (forall err w r path w0,
       fixFile (with_check_error E err) w r path w0 = fixFile E w r path w0).
Proof.
  intros Hid. split; [|split].
  - rewrite Visit_CompositeLit. rewrite after_lits_not_eligible; [done|].
    constructor; [|constructor]. unfold lit_fields; simpl. by rewrite Hid.
  - intros n. eexists. split; [apply Walk_lits|]. simpl.
    by rewrite flat_map_resolved.
  - reflexivity.
Qed.

Lemma C6_witness :
  Visit (Demo.visitor_of None) (Some (ast.CompositeLit 7 None 49 Demo.lit_elts))
  = Some (Demo.visitor_of None)
  ∧ (forall n, ∃ v',
       Walk (Demo.visitor_of None) n = Some v'
       ∧ added v' = added (Demo.visitor_of None) ++ [])
  ∧ (forall err w r path w0,
       fixFile (with_check_error Demo.env err) w r path w0 = fixFile Demo.env w r path w0).
Proof.
  apply (C6_unresolved_literal_is_skipped Demo.env (Demo.visitor_of None) 7%nat None 49
           Demo.lit_elts).
  reflexivity.
Defined.

(** ** The command *)

(** C7. In the default mode on standard input the source does not do what
    the claim says: [fixFile] is given [os.Stdout] and the empty path, so
    it reads the input bytes with [ioutil.ReadFile("")], which fails.  For
    every environment and every world the run exits with status 1 and
    prints nothing on standard output. *)
Theorem C7_default_stdin_mode_exits_1 E w0 :
  ∃ w1, main E false false [] w0 = (Exit 1, w1)
        ∧ stdout w1 = stdout w0 ∧ fs w1 = fs w0.
Proof.
  unfold main. simpl. rewrite M_bind_eq, fixFile_phases.
  destruct (fixFile_resolve_frame E (Some Stdin) "" w0) as (x & cs & ->).
  destruct x as [[f tm]|err]; simpl.
  - unfold fixFile_emit, try_, ioutil_ReadFile.
    unfold mbind, M_bind, mret, M_ret, log, get_world. simpl.
    by eexists.
  - rewrite M_bind_eq.
    change (reportErr err ≫= λ _ : (), mret ()) with (reportErrs [err]).
    match goal with |- context [reportErrs ?es ?w] =>
      destruct (reportErrs_frame es w) as [bs ->] end.
    by eexists.
Qed.

(** The failing input: a valid unit with an unkeyed literal on standard
    input, no flag, no path. *)
Example default_stdin_mode_on_a_valid_unit :
  let r := main Demo.env false false [] (Demo.world Demo.src_plain Demo.src_stdin) in
  r.1 = Exit 1
  ∧ stdout r.2 = []
  ∧ stderr r.2 = bytes_of ("open : no such file or directory" +:+ nl).
Proof. vm_compute. done. Qed.

(** C9. With [-w] and no path the program prints
    ["can't use -w on stdin"] on the error stream and exits with status 1;
    it has called no collaborator and changed nothing else. *)
Theorem C9_overwrite_on_stdin_is_fatal E list_ w0 :
  main E true list_ [] w0
  = (Exit 1, {| fs := fs w0; stdin := stdin w0; stdout := stdout w0;
                stderr := stderr w0 ++ bytes_of ("can't use -w on stdin" +:+ nl);
                buf := buf w0; calls := calls w0 |}).
Proof. reflexivity. Qed.

Local Arguments fixFile : simpl never.
Local Arguments reportErr : simpl never.

(** C8 (as amended). When [fixFile] runs without a writer (list mode) and
    returns without error, the flag is up exactly when a literal of the
    file is eligible; the world is the one the parse-and-check phase left, so no
    file was read again, nothing was patched, formatted or written; a run
    with a writer on the same world returns the same flag whenever it
    returns without error.  In list-only mode [main] then prints
    ["<standard input>"] or the path exactly when the flag is up. *)
Theorem C8_changed_flag E r path w0 fx w1 :
  fixFile E None r path w0 = (Ret (fx, None), w1) ->
  ∃ f tm,
    fixFile_resolve E r path w0 = (Ret (inl (f, tm)), w1)
    ∧ (fx = true ↔ ∃ l, l ∈ lits (ast.root f) ∧ is_Some (classify (tm !! l.1) l.2))
    ∧ (forall wr fx' w1',
         fixFile E (Some wr) r path w0 = (Ret (fx', None), w1') -> fx' = fx)
    ∧ (r = Some Stdin -> path = ""%string ->
       main E false true [] w0
       = (Ret (), if fx then (fmt_Println "<standard input>" w1).2 else w1))
    ∧ (forall p w00,
         r = None -> filepath_Abs E p = inl path -> w0 = (log (CallAbs p) w00).2 ->
         main_path E false true p w00
         = (Ret (), if fx then (fmt_Println p w1).2 else w1)).
Proof.
  intros Hrun. pose proof Hrun as Hrun'. rewrite fixFile_phases in Hrun'.
  destruct (fixFile_resolve E r path w0) as [[x| |] w'] eqn:Hres; try done.
  destruct x as [[f tm]|err]; [|done]. simpl in Hrun'.
  rewrite fixFile_emit_None in Hrun'. simplify_eq.
  exists f, tm. split; [done|]. split; [apply existsb_lit_eligible|].
  split; [|split].
  - intros wr fx' w1' Hwr. rewrite fixFile_phases, Hres in Hwr. simpl in Hwr.
    by apply fixFile_emit_Some in Hwr as (inp & o & res & _ & _ & _ & _ & -> & _).
  - intros -> ->. unfold main. simpl. rewrite M_bind_eq, Hrun. simpl.
    rewrite andb_true_r. by destruct (existsb _ _).
  - intros p w00 -> Habs ->. unfold log in Hrun. simpl in Hrun.
    unfold main_path, log, mbind, M_bind, mret, M_ret. simpl.
    rewrite Habs, Hrun. simpl.
    rewrite andb_true_r. by destruct (existsb _ _).
Qed.

Lemma C8_witness :
  ∃ f tm,
    fixFile_resolve Demo.env None "/p/a.go" Demo.world_listed
    = (Ret (inl (f, tm)), (fixFile Demo.env None None "/p/a.go" Demo.world_listed).2)
    ∧ (true = true ↔ ∃ l, l ∈ lits (ast.root f) ∧ is_Some (classify (tm !! l.1) l.2))
    ∧ (forall wr fx' w1',
         fixFile Demo.env (Some wr) None "/p/a.go" Demo.world_listed
         = (Ret (fx', None), w1') -> fx' = true)
    ∧ (None = Some Stdin -> "/p/a.go"%string = ""%string ->
       main Demo.env false true [] Demo.world_listed
       = (Ret (),
          (fmt_Println "<standard input>"
             (fixFile Demo.env None None "/p/a.go" Demo.world_listed).2).2))
    ∧ (forall p w00,
         (None : option Reader) = None -> filepath_Abs Demo.env p = inl "/p/a.go"%string ->
         Demo.world_listed = (log (CallAbs p) w00).2 ->
         main_path Demo.env false true p w00
         = (Ret (),
            (fmt_Println p (fixFile Demo.env None None "/p/a.go" Demo.world_listed).2).2)).
Proof.
  apply (C8_changed_flag Demo.env None "/p/a.go" Demo.world_listed true
           (fixFile Demo.env None None "/p/a.go" Demo.world_listed).2).
  vm_compute. reflexivity.
Defined.

(** The claim as it stands fails: the flag that is returned does depend
    on whether output bytes are requested, since a run that returns an
    error returns the flag down.  On standard input with the unit
    [src_stdin], whose literal of [T] is eligible, the run without a writer
    returns the flag up and the run with [os.Stdout] returns it down,
    together with the error of reading the empty path. *)
Lemma C8_counterexample :
  (fixFile Demo.env None (Some Stdin) "" (Demo.world Demo.src_plain Demo.src_stdin)).1
  = Ret (true, None)
  ∧ (fixFile Demo.env (Some Stdout) (Some Stdin) ""
       (Demo.world Demo.src_plain Demo.src_stdin)).1
    = Ret (false, Some (ErrorString "open : no such file or directory"))
  ∧ (0%nat, [ast.CompositeLit 1 (Some (Demo.leaf 64)) 65 [];
             ast.CompositeLit 2 (Some (Demo.leaf 69)) 70 []]) ∈ lits Demo.tree_stdin
  ∧ is_Some (classify (Demo.types_q !! 0%nat)
               [ast.CompositeLit 1 (Some (Demo.leaf 64)) 65 [];
                ast.CompositeLit 2 (Some (Demo.leaf 69)) 70 []]).
Proof.
  split; [vm_compute; reflexivity|]. split; [vm_compute; reflexivity|].
  split; [|by eexists].
  apply list_elem_of_In. simpl. by left.
Qed.

(** List-only mode on a path, run on the small unit: the path is printed,
    and the file is neither read again nor formatted. *)
Example list_only_mode_on_a_file :
  let r := main Demo.env false true ["/p/a.go"%string] (Demo.world Demo.src_unkeyed "") in
  r.1 = Ret ()
  ∧ stdout r.2 = bytes_of ("/p/a.go" +:+ nl)
  ∧ calls r.2 = [CallAbs "/p/a.go"; CallParseDir "/p"; CallGetwd; CallCheck].
Proof. vm_compute. done. Qed.

(** C10. In overwrite mode, for a path whose [fixFile] returns without
    error, the loop body always calls [ioutil.WriteFile] on the path with
    the bytes the formatter returned, whatever the flag: when the write
    succeeds the file holds those bytes. *)
Theorem C10_overwrite_writes_back_unconditionally E list_ path w0 abs fx w1 :
  filepath_Abs E path = inl abs ->
  fixFile E (Some Buffer) None abs
    {| fs := fs w0; stdin := stdin w0; stdout := stdout w0; stderr := stderr w0;
       buf := []; calls := calls w0 ++ [CallAbs path] |}
  = (Ret (fx, None), w1) ->
  ∃ o res out2 w2,
    format_Source E o = inl res
    ∧ buf w1 = res
    ∧ main_path E true list_ path w0 = (out2, w2)
    ∧ calls w2 = calls w1 ++ [CallWriteFile path]
    ∧ (write_error E (fs w1) path = None ->
       out2 = Ret () ∧ fs w2 = <[os_resolve E path := res]> (fs w1))
    ∧ (forall err, write_error E (fs w1) path = Some err ->
       out2 = Exit 1 ∧ fs w2 = fs w1).
Proof.
  intros Habs Hrun. pose proof Hrun as Hrun'. rewrite fixFile_phases in Hrun'.
  match type of Hrun' with context [fixFile_resolve E None abs ?w] =>
    destruct (fixFile_resolve_frame E None abs w) as (x & cs & Hres) end.
  rewrite Hres in Hrun'. destruct x as [[f tm]|err]; [|done]. simpl in Hrun'.
  apply fixFile_emit_Some in Hrun' as (inp & o & res & _ & _ & _ & Hfmt & _ & Hw1).
  simpl in Hw1.
  assert (Hbuf : buf w1 = res) by (by rewrite Hw1).
  exists o, res.
  unfold main_path, ioutil_WriteFile, fmt_Println, write_stdout, log, get_world,
    set_fs, set_buf, reportErrs, os_Exit, mbind, M_bind, mret, M_ret.
  simpl. rewrite Habs, Hrun. simpl.
  destruct (fx && list_); simpl.
  - destruct (write_error E (fs w1) path) as [err|] eqn:Hw; simpl.
    + match goal with |- context [reportErr ?e ?w] =>
        destruct (reportErr_frame e w) as [bs ->] end. simpl.
      eexists _, _. split; [done|]. split; [done|]. split; [done|]. split; [done|].
      split; [done|]. intros ? _. done.
    + eexists _, _. split; [done|]. split; [done|]. split; [done|]. split; [done|].
      split; [|done]. intros _. by rewrite Hbuf.
  - destruct (write_error E (fs w1) path) as [err|] eqn:Hw; simpl.
    + match goal with |- context [reportErr ?e ?w] =>
        destruct (reportErr_frame e w) as [bs ->] end. simpl.
      eexists _, _. split; [done|]. split; [done|]. split; [done|]. split; [done|].
      split; [done|]. intros ? _. done.
    + eexists _, _. split; [done|]. split; [done|]. split; [done|]. split; [done|].
      split; [|done]. intros _. by rewrite Hbuf.
Qed.

Lemma C10_witness :
  ∃ o res out2 w2,
    format_Source Demo.env o = inl res
    ∧ buf (fixFile Demo.env (Some Buffer) None "/p/a.go" Demo.world_plain).2 = res
    ∧ main_path Demo.env true false "/p/a.go" (Demo.world Demo.src_plain "") = (out2, w2)
    ∧ calls w2
      = calls (fixFile Demo.env (Some Buffer) None "/p/a.go" Demo.world_plain).2
        ++ [CallWriteFile "/p/a.go"]
    ∧ (write_error Demo.env
         (fs (fixFile Demo.env (Some Buffer) None "/p/a.go" Demo.world_plain).2)
         "/p/a.go" = None ->
       out2 = Ret ()
       ∧ fs w2 = <[os_resolve Demo.env "/p/a.go" := res]>
                   (fs (fixFile Demo.env (Some Buffer) None "/p/a.go" Demo.world_plain).2))
    ∧ (forall err,
         write_error Demo.env
           (fs (fixFile Demo.env (Some Buffer) None "/p/a.go" Demo.world_plain).2)
           "/p/a.go" = Some err ->
         out2 = Exit 1
         ∧ fs w2 = fs (fixFile Demo.env (Some Buffer) None "/p/a.go" Demo.world_plain).2).
Proof.
  apply (C10_overwrite_writes_back_unconditionally Demo.env false "/p/a.go"
           (Demo.world Demo.src_plain "") "/p/a.go" false
           (fixFile Demo.env (Some Buffer) None "/p/a.go" Demo.world_plain).2).
  - reflexivity.
  - vm_compute. reflexivity.
Defined.

(** Overwrite mode on a file without literals that is not in canonical
    layout: the flag stays down, nothing is listed, and the file is
    rewritten with the formatter's bytes. *)
Example overwrite_mode_rewrites_a_file_without_literals :
  let r := main Demo.env true true ["/p/a.go"%string] (Demo.world Demo.src_plain "") in
  r.1 = Ret ()
  ∧ stdout r.2 = []
  ∧ fs (Demo.world Demo.src_plain "") !! "/p/a.go"%string = Some (bytes_of Demo.src_plain)
  ∧ fs r.2 !! "/p/a.go"%string = Some (bytes_of Demo.src_plain_fmt).
Proof. vm_compute. done. Qed.

(** List-only mode on standard input: the placeholder is printed, and no
    file is read. *)
Example list_only_mode_on_standard_input :
  let r := main Demo.env false true [] (Demo.world Demo.src_plain Demo.src_stdin) in
  r.1 = Ret ()
  ∧ stdout r.2 = bytes_of ("<standard input>" +:+ nl)
  ∧ calls r.2 = [CallParseDir "."; CallParseFile; CallNewPackage; CallGetwd; CallCheck].
Proof. vm_compute. done. Qed.

(** The sample trees carry the positions of the sample texts: the bytes
    at the offsets of the two elements are [1] and [2]. *)
Example sample_offsets :
  Walk (Demo.visitor_of (Some (bytes_of Demo.src_unkeyed))) Demo.tree_unkeyed
  = Some Demo.visited
  ∧ bytes_of Demo.src_unkeyed !! 49%nat = Some "1"%byte
  ∧ bytes_of Demo.src_unkeyed !! 51%nat = Some "2"%byte
  ∧ out Demo.sort Demo.visited = Some (bytes_of Demo.src_patched).
Proof. vm_compute. done. Qed.

(** ** Further facts: the helpers *)

(** [assertStructType] finds a struct behind exactly four shapes: the
    struct itself, a pointer to it, a named type over it, a pointer to a
    named type over it.  The pointer is unwrapped before the name and each
    only once, so a pointer to a pointer and a named pointer type yield
    nothing. *)
Theorem assertStructType_shapes (t : types.GoType) (s : types.StructT) :
  assertStructType t = Some s
  ↔ t = types.Struct s
    ∨ t = types.Pointer (types.Struct s)
    ∨ (∃ n, t = types.Named n (types.Struct s))
    ∨ (∃ n, t = types.Pointer (types.Named n (types.Struct s))).
Proof.
  rewrite assertStructType_record_fields. split.
  - destruct t as [|e|n u|s'|e|n e|k e|]; simpl; try done.
    + destruct e as [|e'|n u|s'|e'|n e'|k e'|]; simpl; try done.
      * destruct u; simpl; try done. intros [= ->]. right; right; right. by eexists.
      * intros [= ->]. by right; left.
    + destruct u; simpl; try done. intros [= ->]. right; right; left. by eexists.
    + intros [= ->]. by left.
  - intros [->|[->|[[n ->]|[n ->]]]]; done.
Qed.

(** [reportErrs] writes, for each error in turn, its lines to the error
    stream (an empty [scanner.ErrorList] writes nothing); it returns, and
    changes nothing else. *)
Theorem reportErrs_prints_lines (errs : list error) (w : World) :
  reportErrs errs w
  = (Ret (), {| fs := fs w; stdin := stdin w; stdout := stdout w;
                stderr := stderr w ++ (errs ≫= err_lines);
                buf := buf w; calls := calls w |}).
Proof.
  assert (Hone : forall err w, reportErr err w
    = (Ret (), {| fs := fs w; stdin := stdin w; stdout := stdout w;
                  stderr := stderr w ++ err_lines err;
                  buf := buf w; calls := calls w |})).
  { clear. intros [errs|msg] w; [|done]. unfold reportErr, err_lines.
    revert w. induction errs as [|e errs IH]; intros w; cbn [foldr].
    - simpl. rewrite app_nil_r. by destruct w.
    - rewrite M_bind_eq. unfold fmt_Fprintln_Stderr at 1, write_stderr.
      rewrite IH. simpl. by rewrite <- app_assoc. }
  unfold reportErrs. revert w. induction errs as [|err errs IH]; intros w; cbn [foldr].
  - simpl. rewrite app_nil_r. by destruct w.
  - rewrite M_bind_eq, Hone, IH. simpl. by rewrite <- app_assoc.
Qed.

Lemma list_find_snd_perm {A} (P : A -> Prop) `{!forall x, Decision (P x)} (l l' : list A) :
  l ≡ₚ l' ->
  (forall x y, x ∈ l -> y ∈ l -> P x -> P y -> x = y) ->
  snd <$> list_find P l = snd <$> list_find P l'.
Proof.
  intros Hperm Huniq.
  destruct (list_find P l) as [[i x]|] eqn:Hl; simpl.
  - apply list_find_Some in Hl as (Hi & HPx & _).
    assert (Hx : x ∈ l) by (by eapply list_elem_of_lookup_2).
    destruct (list_find_elem_of P l' x) as [[j y] Hl']; [by rewrite <- Hperm|done|].
    rewrite Hl'. simpl. f_equal.
    apply list_find_Some in Hl' as (Hj & HPy & _).
    apply Huniq; [done| |done|done].
    rewrite Hperm. by eapply list_elem_of_lookup_2.
  - apply list_find_None in Hl. rewrite Hperm in Hl.
    apply (proj2 (list_find_None P l')) in Hl. by rewrite Hl.
Qed.

Lemma NoDup_fmap_elem_inj {A B} (f : A -> B) (l : list A) x y :
  NoDup (f <$> l) -> x ∈ l -> y ∈ l -> f x = f y -> x = y.
Proof.
  induction l as [|a l IH]; intros Hnd Hx Hy Hf; [by apply elem_of_nil in Hx|].
  rewrite fmap_cons in Hnd. apply NoDup_cons in Hnd as [Ha Hnd].
  apply elem_of_cons in Hx as [->|Hx], Hy as [->|Hy]; [done| | |by apply IH].
  - destruct Ha. rewrite Hf. by apply list_elem_of_fmap_2.
  - destruct Ha. rewrite <- Hf. by apply list_elem_of_fmap_2.
Qed.

Lemma file_names_entries (pkgs : list (string * ast.Package)) :
  (fun pf : ast.Package * (string * ast.File) => pf.2.1)
    <$> (pkgs ≫= fun p => (fun f => (p.2, f)) <$> ast.Files p.2)
  = file_names pkgs.
Proof.
  unfold file_names. induction pkgs as [|p pkgs IH]; [done|]. csimpl.
  rewrite fmap_app, IH. f_equal. rewrite <- list_fmap_compose. done.
Qed.

(** [findPkgForFile] returns a package of the directory together with the
    file it holds under the cleaned path; it finds nothing exactly when no
    package holds a file under that name. *)
Theorem findPkgForFile_found E (pkgs : list (string * ast.Package)) (path : string) :
  match findPkgForFile E pkgs path with
  | Some (pkg, f) =>
      ∃ name, (name, pkg) ∈ pkgs ∧ (filepath_Clean E path, f) ∈ ast.Files pkg
  | None => filepath_Clean E path ∉ file_names pkgs
  end.
Proof.
  unfold findPkgForFile.
  destruct (list_find _ _) as [[i [pkg [fn f]]]|] eqn:Hfind; simpl.
  - apply list_find_Some in Hfind as (Hi & Hfn & _). simpl in Hfn. subst fn.
    apply list_elem_of_lookup_2 in Hi.
    apply list_elem_of_bind in Hi as ([name pkg'] & Hin & Hp). simpl in Hin.
    apply list_elem_of_fmap in Hin as (e & [= -> ->] & He).
    by exists name.
  - apply list_find_None in Hfind. rewrite <- file_names_entries.
    intros (pf & Heq & Hpf)%list_elem_of_fmap.
    rewrite Forall_forall in Hfind. by apply (Hfind pf Hpf).
Qed.

(** [findPkgForStdinFile] returns a package listed under the package name
    of the file; it finds nothing exactly when the directory has no package
    of that name. *)
Theorem findPkgForStdinFile_found (pkgs : list (string * ast.Package)) (f : ast.File) :
  match findPkgForStdinFile pkgs f with
  | Some pkg => (ast.Name f, pkg) ∈ pkgs
  | None => ast.Name f ∉ pkgs.*1
  end.
Proof.
  unfold findPkgForStdinFile.
  destruct (list_find _ _) as [[i [name pkg]]|] eqn:Hfind; simpl.
  - apply list_find_Some in Hfind as (Hi & Hn & _). simpl in Hn. subst name.
    by eapply list_elem_of_lookup_2.
  - apply list_find_None in Hfind.
    intros (p & Heq & Hp)%list_elem_of_fmap.
    rewrite Forall_forall in Hfind. by apply (Hfind p Hp).
Qed.

(** The two searches range over Go maps, whose iteration order is not
    fixed.  Keys of a map are distinct, so the order does not matter: any
    rearrangement of the packages gives the same answers. *)
Theorem findPkg_any_iteration_order
    E (pkgs pkgs' : list (string * ast.Package)) (path : string) (f : ast.File) :
  pkgs ≡ₚ pkgs' ->
  NoDup pkgs.*1 ->
  NoDup (file_names pkgs) ->
  findPkgForFile E pkgs path = findPkgForFile E pkgs' path
  ∧ findPkgForStdinFile pkgs f = findPkgForStdinFile pkgs' f.
Proof.
  intros Hperm Hnames Hfiles. split.
  - unfold findPkgForFile.
    set (P := fun pf : ast.Package * (string * ast.File) => pf.2.1 = filepath_Clean E path).
    set (L := fun ps : list (string * ast.Package) =>
                ps ≫= fun p => (fun f => (p.2, f)) <$> ast.Files p.2).
    assert (Hsnd : snd <$> list_find P (L pkgs) = snd <$> list_find P (L pkgs')).
    { apply list_find_snd_perm; [unfold L; by rewrite Hperm|].
      intros x y Hx Hy Px Py. unfold P in Px, Py.
      apply (NoDup_fmap_elem_inj (fun pf : ast.Package * (string * ast.File) => pf.2.1)
               (L pkgs)); [|done|done|congruence].
      unfold L. by rewrite file_names_entries. }
    fold (L pkgs) (L pkgs'). fold P.
    destruct (list_find P (L pkgs)) as [[i x]|], (list_find P (L pkgs')) as [[j y]|];
      simpl in *; by simplify_eq.
  - unfold findPkgForStdinFile.
    set (P := fun p : string * ast.Package => p.1 = ast.Name f).
    assert (Hsnd : snd <$> list_find P pkgs = snd <$> list_find P pkgs').
    { apply list_find_snd_perm; [done|].
      intros x y Hx Hy Px Py. unfold P in Px, Py.
      apply (NoDup_fmap_elem_inj fst pkgs); [done|done|done|congruence]. }
    fold P.
    destruct (list_find P pkgs) as [[i x]|], (list_find P pkgs') as [[j y]|];
      simpl in *; by simplify_eq.
Qed.

Lemma findPkg_any_iteration_order_witness :
  findPkgForFile Demo.env
    [("p"%string, {| ast.PkgName := "p";
                     ast.Files := [("/p/a.go"%string, Demo.file_of "p" Demo.tree_plain)] |});
     ("q"%string, {| ast.PkgName := "q";
                     ast.Files := [("/p/b.go"%string, Demo.file_of "q" Demo.tree_stdin)] |})]
    "/p/b.go"
  = findPkgForFile Demo.env
      [("q"%string, {| ast.PkgName := "q";
                       ast.Files := [("/p/b.go"%string, Demo.file_of "q" Demo.tree_stdin)] |});
       ("p"%string, {| ast.PkgName := "p";
                       ast.Files := [("/p/a.go"%string, Demo.file_of "p" Demo.tree_plain)] |})]
      "/p/b.go"
  ∧ findPkgForStdinFile
      [("p"%string, {| ast.PkgName := "p";
                       ast.Files := [("/p/a.go"%string, Demo.file_of "p" Demo.tree_plain)] |});
       ("q"%string, {| ast.PkgName := "q";
                       ast.Files := [("/p/b.go"%string, Demo.file_of "q" Demo.tree_stdin)] |})]
      (Demo.file_of "q" Demo.tree_stdin)
    = findPkgForStdinFile
        [("q"%string, {| ast.PkgName := "q";
                         ast.Files := [("/p/b.go"%string, Demo.file_of "q" Demo.tree_stdin)] |});
         ("p"%string, {| ast.PkgName := "p";
                         ast.Files := [("/p/a.go"%string, Demo.file_of "p" Demo.tree_plain)] |})]
        (Demo.file_of "q" Demo.tree_stdin).
Proof.
  apply findPkg_any_iteration_order.
  - apply perm_swap.
  - apply (bool_decide_unpack _). vm_compute. exact I.
  - apply (bool_decide_unpack _). vm_compute. exact I.
Defined.

(** ** Further facts: the patch applier *)

#[local] Instance offset_le_trans : Transitive offset_le.
Proof. intros x y z. unfold offset_le. lia. Qed.

(** [out] panics (a slice bound out of range) exactly when some Edit has a
    negative offset or an offset beyond the end of the input; otherwise it
    returns. *)
Theorem out_returns_iff_in_range (sort : list chunk -> list chunk) (v : visitor) :
  sorts_by_offset sort ->
  (is_Some (out sort v) ↔ Forall (in_range (default [] (in_ v))) (added v)).
Proof.
  intros Hsort. split.
  - intros [o Ho]. apply out_with_insertions in Ho as [_ Hr].
    destruct (Hsort (added v)) as [_ Hp]. by rewrite <- Hp.
  - intros Hr. rewrite out_in_range by done. by eexists.
Qed.

Lemma out_returns_iff_in_range_witness :
  is_Some (out Demo.sort Demo.visited)
  ↔ Forall (in_range (default [] (in_ Demo.visited))) (added Demo.visited).
Proof.
  apply (out_returns_iff_in_range Demo.sort Demo.visited). apply demo_sort_sorts.
Defined.

(** An Edit past the end of the input makes [out] panic. *)
Example out_panics_past_the_end :
  out Demo.sort {| file := {| token.base := 1 |}; types_ := ∅;
                   in_ := Some (bytes_of "ab");
                   added := [{| offset := 3; b := bytes_of "X: " |}];
                   fixed := true |} = None.
Proof. reflexivity. Qed.

(** When Edits with the same offset are the same Edit, the result of
    [out] depends neither on the order in which the Edits were collected
    nor on how [sort.Slice] orders them: an unstable sort is enough. *)
Theorem out_any_collection_order
    (sort sort' : list chunk -> list chunk) (v v' : visitor) :
  sorts_by_offset sort -> sorts_by_offset sort' ->
  in_ v = in_ v' ->
  added v ≡ₚ added v' ->
  (forall c1 c2, c1 ∈ added v -> c2 ∈ added v -> offset c1 = offset c2 -> c1 = c2) ->
  out sort v = out sort' v'.
Proof.
  intros Hsort Hsort' Hin Hperm Huniq. unfold out. rewrite Hin. f_equal.
  destruct (Hsort (added v)) as [Hs Hp], (Hsort' (added v')) as [Hs' Hp'].
  apply (Sorted_unique_strong offset_le); [|done|done|by rewrite Hp, Hp'].
  intros c1 c2 H1 H2 H12 H21. apply Huniq.
  - by rewrite <- Hp.
  - by rewrite Hperm, <- Hp'.
  - unfold offset_le in *. lia.
Qed.

Lemma out_any_collection_order_witness :
  out Demo.sort Demo.visited
  = out Demo.sort (set_added Demo.visited (reverse (added Demo.visited))).
Proof.
  apply out_any_collection_order.
  - apply demo_sort_sorts.
  - apply demo_sort_sorts.
  - reflexivity.
  - simpl. apply perm_swap.
  - intros c1 c2 H1 H2 Heq. simpl in H1, H2.
    apply elem_of_cons in H1 as [->|H1]; apply elem_of_cons in H2 as [->|H2];
      try apply list_elem_of_singleton in H1 as ->;
      try apply list_elem_of_singleton in H2 as ->;
      simpl in Heq; (reflexivity || lia).
Defined.

(** ** Further facts: the visitor *)

Lemma lit_edits_length tf (tm : gmap nat types.TypeAndValue) (l : nat * list ast.Node) :
  length (lit_edits tf tm l)
  = if decide (is_Some (lit_fields tm l)) then length l.2 else 0%nat.
Proof.
  unfold lit_edits. destruct (lit_fields tm l) as [s|] eqn:Hs.
  - rewrite decide_True by done. unfold edits_for. rewrite length_zip_with.
    unfold lit_fields, classify in Hs. destruct (tm !! l.1) as [tv|]; [|done].
    destruct (record_fields _) as [s'|]; [|done].
    case_decide; [done|]. case_decide as Hlen; [|done].
    assert (s' = s) as -> by (by destruct l.2 as [|[] ?]; simplify_eq).
    unfold types.NumFields in Hlen. lia.
  - rewrite decide_False; [done|]. by intros [? ?].
Qed.

(** At a literal [Visit] never panics and never adds a part of the Edits:
    it adds none, or one per element, and in the latter case it holds input
    bytes and raises the flag.  It never lowers the flag and changes no
    other field. *)
Theorem Visit_all_or_nothing (v : visitor) id ty lb (elts : list ast.Node) :
  ∃ v' new,
    Visit v (Some (ast.CompositeLit id ty lb elts)) = Some v'
    ∧ file v' = file v ∧ types_ v' = types_ v ∧ in_ v' = in_ v
    ∧ added v' = added v ++ new
    ∧ (new = [] ∨ (length new = length elts ∧ fixed v' = true ∧ is_Some (in_ v)))
    ∧ (fixed v = true -> fixed v' = true).
Proof.
  rewrite Visit_CompositeLit. eexists _, _. split; [done|].
  unfold after_lits; simpl. repeat split.
  - destruct (in_ v) as [inp|]; [|by left]. rewrite app_nil_r.
    pose proof (lit_edits_length (file v) (types_ v) (id, elts)) as Hlen.
    unfold lit_eligible. case_decide as He; simpl in Hlen.
    + right. split; [done|]. rewrite bool_decide_eq_true_2 by done.
      by rewrite orb_true_r.
    + left. by apply nil_length_inv.
  - intros ->. done.
Qed.

(** A walk never panics.  It keeps the file, the types and the input
    bytes, keeps the Edits collected so far as a prefix of the new ones,
    never lowers the flag, and without input bytes (list mode) it adds
    no Edit. *)
Theorem Walk_keeps_and_extends (v : visitor) (n : ast.Node) :
  ∃ v' new,
    Walk v n = Some v'
    ∧ file v' = file v ∧ types_ v' = types_ v ∧ in_ v' = in_ v
    ∧ added v' = added v ++ new
    ∧ (in_ v = None -> new = [])
    ∧ (fixed v = true -> fixed v' = true).
Proof.
  rewrite Walk_lits. eexists _, _. split; [done|].
  unfold after_lits; simpl. repeat split.
  - by intros ->.
  - by intros ->.
Qed.

Lemma elem_of_flat_map {A B} (f : A -> list B) (l : list A) (y : B) :
  y ∈ flat_map f l ↔ ∃ x, x ∈ l ∧ y ∈ f x.
Proof.
  rewrite list_elem_of_In, in_flat_map. split.
  - intros (x & Hx & Hy). exists x. by rewrite !list_elem_of_In.
  - intros (x & Hx & Hy). exists x. by rewrite <- !list_elem_of_In.
Qed.

(** Every Edit that a walk adds sits at the start of an element of an
    eligible literal of the tree, and its text is the name of the field
    with the element's index, followed by [": "]. *)
Theorem Walk_edits_at_elements (v v' : visitor) (n : ast.Node) (c : chunk) :
  Walk v n = Some v' ->
  c ∈ added v' ->
  c ∈ added v
  ∨ ∃ id elts s i e f,
      (id, elts) ∈ lits n
      ∧ classify (types_ v !! id) elts = Some s
      ∧ elts !! i = Some e ∧ s !! i = Some f
      ∧ offset c = token.Offset (file v) (ast.Pos e)
      ∧ b c = bytes_of (types.Name f +:+ ": "%string).
Proof.
  rewrite Walk_lits. intros [= <-]. unfold after_lits; simpl.
  intros [Hc|Hc]%elem_of_app; [by left|]. right.
  destruct (in_ v) as [inp|]; [|by apply elem_of_nil in Hc].
  apply elem_of_flat_map in Hc as ([id elts] & Hl & Hc).
  unfold lit_edits, lit_fields in Hc. simpl in Hc.
  destruct (classify (types_ v !! id) elts) as [s|] eqn:Hs;
    [|by apply elem_of_nil in Hc].
  apply list_elem_of_lookup in Hc as [i Hi]. unfold edits_for in Hi.
  apply lookup_zip_with_Some in Hi as (e & f & -> & He & Hf).
  by exists id, elts, s, i, e, f.
Qed.

Lemma Walk_edits_at_elements_witness :
  {| offset := 51; b := bytes_of "Y: " |}
    ∈ added (Demo.visitor_of (Some (bytes_of Demo.src_unkeyed)))
  ∨ ∃ id elts s i e f,
      (id, elts) ∈ lits Demo.tree_unkeyed
      ∧ classify (types_ (Demo.visitor_of (Some (bytes_of Demo.src_unkeyed))) !! id) elts
        = Some s
      ∧ elts !! i = Some e ∧ s !! i = Some f
      ∧ offset {| offset := 51; b := bytes_of "Y: " |}
        = token.Offset (file (Demo.visitor_of (Some (bytes_of Demo.src_unkeyed))))
                       (ast.Pos e)
      ∧ b {| offset := 51; b := bytes_of "Y: " |}
        = bytes_of (types.Name f +:+ ": "%string).
Proof.
  apply (Walk_edits_at_elements (Demo.visitor_of (Some (bytes_of Demo.src_unkeyed)))
           Demo.visited Demo.tree_unkeyed).
  - vm_compute. reflexivity.
  - simpl. apply elem_of_cons. right. apply elem_of_cons. by left.
Defined.

(** With input bytes a walk adds as many Edits as the eligible literals
    of the tree have elements. *)
Theorem Walk_edit_count (v v' : visitor) (n : ast.Node) (inp : list byte) :
  Walk v n = Some v' ->
  in_ v = Some inp ->
  length (added v')
  = (length (added v)
     + sum_list ((fun l : nat * list ast.Node => length l.2)
                   <$> filter (fun l => is_Some (lit_fields (types_ v) l)) (lits n)))%nat.
Proof.
  rewrite Walk_lits. intros [= <-] Hin. unfold after_lits; simpl.
  rewrite Hin, length_app. f_equal.
  induction (lits n) as [|l ls IH]; [done|]. cbn [flat_map].
  rewrite length_app, IH, lit_edits_length, filter_cons.
  case_decide; simpl; reflexivity.
Qed.

Lemma Walk_edit_count_witness :
  length (added Demo.visited)
  = (length (added (Demo.visitor_of (Some (bytes_of Demo.src_unkeyed))))
     + sum_list ((fun l : nat * list ast.Node => length l.2)
                   <$> filter (fun l => is_Some
                                 (lit_fields
                                    (types_ (Demo.visitor_of
                                               (Some (bytes_of Demo.src_unkeyed)))) l))
                              (lits Demo.tree_unkeyed)))%nat.
Proof.
  apply (Walk_edit_count (Demo.visitor_of (Some (bytes_of Demo.src_unkeyed)))
           Demo.visited Demo.tree_unkeyed (bytes_of Demo.src_unkeyed)).
  - vm_compute. reflexivity.
  - reflexivity.
Defined.

Lemma findPkgForFile_none E (pkgs : list (string * ast.Package)) (path : string) :
  filepath_Clean E path ∉ file_names pkgs -> findPkgForFile E pkgs path = None.
Proof.
  intros Hout. unfold findPkgForFile.
  destruct (list_find _ _) as [[i [pkg [fn f]]]|] eqn:Hfind; [|done].
  apply list_find_Some in Hfind as (Hi & Hfn & _). simpl in Hfn. subst fn.
  destruct Hout. rewrite <- file_names_entries.
  apply list_elem_of_fmap. eexists. split; [|by eapply list_elem_of_lookup_2]. done.
Qed.

(** ** Further facts: the driver *)

Local Arguments reportErrs : simpl never.

Lemma fixFile_emit_frame E w path f tm w0 o w1 :
  fixFile_emit E w path f tm w0 = (o, w1) ->
  fs w1 = fs w0 ∧ stdin w1 = stdin w0 ∧ stderr w1 = stderr w0
  ∧ (w ≠ Some Stdout -> stdout w1 = stdout w0)
  ∧ (w ≠ Some Buffer -> buf w1 = buf w0)
  ∧ calls w0 `prefix_of` calls w1
  ∧ (forall c, o ≠ Exit c)
  ∧ (forall fx err, o = Ret (fx, Some err) ->
       fx = false ∧ stdout w1 = stdout w0 ∧ buf w1 = buf w0).
Proof.
  destruct w as [wr|].
  - unfold fixFile_emit, try_, ioutil_ReadFile, io_Copy.
    unfold mbind, M_bind, mret, M_ret, or_panic, log, get_world. simpl.
    destruct (decide (path = ""%string)) as [Hp|Hp]; simpl.
    { intros [= <- <-]; simpl. split_and!; try done; [by eexists|].
      by intros fx err [= <- <-]. }
    destruct (fs w0 !! os_resolve E path) as [inp|] eqn:Hinp; simpl.
    2:{ intros [= <- <-]; simpl. split_and!; try done; [by eexists|].
        by intros fx err [= <- <-]. }
    rewrite Walk_lits. unfold after_lits; simpl.
    destruct (out _ _) as [ob|] eqn:Ho; simpl.
    2:{ intros [= <- <-]; simpl. split_and!; try done. by eexists. }
    destruct (format_Source E ob) as [res|err] eqn:Hres; simpl.
    2:{ intros [= <- <-]; simpl. split_and!; try done.
        - rewrite <- app_assoc. by eexists.
        - by intros fx err' [= <- <-]. }
    destruct wr; simpl; intros [= <- <-]; simpl; split_and!; try done;
      rewrite <- ?app_assoc; by eexists.
  - rewrite fixFile_emit_None. intros [= <- <-]. split_and!; done.
Qed.

Lemma fixFile_frame E w r path w0 o w1 :
  fixFile E w r path w0 = (o, w1) ->
  fs w1 = fs w0 ∧ stdin w1 = stdin w0 ∧ stderr w1 = stderr w0
  ∧ (w ≠ Some Stdout -> stdout w1 = stdout w0)
  ∧ (w ≠ Some Buffer -> buf w1 = buf w0)
  ∧ calls w0 `prefix_of` calls w1
  ∧ (forall c, o ≠ Exit c)
  ∧ (forall fx err, o = Ret (fx, Some err) ->
       fx = false ∧ stdout w1 = stdout w0 ∧ buf w1 = buf w0).
Proof.
  rewrite fixFile_phases.
  destruct (fixFile_resolve_frame E r path w0) as (x & cs & ->).
  destruct x as [[f tm]|err].
  - intros Hemit. apply fixFile_emit_frame in Hemit. simpl in Hemit.
    destruct Hemit as (? & ? & ? & ? & ? & Hpre & ? & ?).
    split_and!; try done. etrans; [|exact Hpre]. by eexists.
  - intros [= <- <-]; simpl. split_and!; try done; [by eexists|].
    by intros fx err' [= <- <-].
Qed.

(** [fixFile] never ends the process and never changes a file, the
    standard input or the error stream.  It writes to the writer it was
    given and to nothing else, and its log of calls only grows. *)
Theorem fixFile_touches_only_its_writer E w r path w0 o w1 :
  fixFile E w r path w0 = (o, w1) ->
  (forall c, o ≠ Exit c)
  ∧ fs w1 = fs w0 ∧ stdin w1 = stdin w0 ∧ stderr w1 = stderr w0
  ∧ (w ≠ Some Stdout -> stdout w1 = stdout w0)
  ∧ (w ≠ Some Buffer -> buf w1 = buf w0)
  ∧ calls w0 `prefix_of` calls w1.
Proof.
  intros Hrun. apply fixFile_frame in Hrun.
  destruct Hrun as (? & ? & ? & ? & ? & ? & ? & ?). split_and!; done.
Qed.

Lemma fixFile_touches_only_its_writer_witness :
  (forall c, (fixFile Demo.env (Some Buffer) None "/p/a.go" Demo.world_plain).1 ≠ Exit c)
  ∧ fs (fixFile Demo.env (Some Buffer) None "/p/a.go" Demo.world_plain).2
    = fs Demo.world_plain
  ∧ stdin (fixFile Demo.env (Some Buffer) None "/p/a.go" Demo.world_plain).2
    = stdin Demo.world_plain
  ∧ stderr (fixFile Demo.env (Some Buffer) None "/p/a.go" Demo.world_plain).2
    = stderr Demo.world_plain
  ∧ (Some Buffer ≠ Some Stdout ->
     stdout (fixFile Demo.env (Some Buffer) None "/p/a.go" Demo.world_plain).2
     = stdout Demo.world_plain)
  ∧ (Some Buffer ≠ Some Buffer ->
     buf (fixFile Demo.env (Some Buffer) None "/p/a.go" Demo.world_plain).2
     = buf Demo.world_plain)
  ∧ calls Demo.world_plain
    `prefix_of` calls (fixFile Demo.env (Some Buffer) None "/p/a.go" Demo.world_plain).2.
Proof.
  apply (fixFile_touches_only_its_writer Demo.env (Some Buffer) None "/p/a.go"
           Demo.world_plain).
  vm_compute. reflexivity.
Defined.

(** When [fixFile], given the buffer of [-w] or no writer, returns an
    error, the flag is false and nothing has been written, neither to the
    buffer nor to standard output nor to a file: every error return comes
    before the copy into the buffer, so with [-w] a failed run leaves the
    buffer empty.  The flag is false on every error return, whatever the
    writer. *)
Theorem fixFile_error_writes_nothing E w r path w0 fx err w1 :
  fixFile E w r path w0 = (Ret (fx, Some err), w1) ->
  fx = false
  ∧ (w ≠ Some Stdout ->
     stdout w1 = stdout w0 ∧ buf w1 = buf w0 ∧ fs w1 = fs w0).
Proof.
  intros Hrun. apply fixFile_frame in Hrun.
  destruct Hrun as (? & ? & ? & ? & ? & ? & ? & Herr).
  destruct (Herr fx err eq_refl) as (? & ? & ?). done.
Qed.

Lemma fixFile_error_writes_nothing_witness :
  false = false
  ∧ (Some Buffer ≠ Some Stdout ->
     stdout (fixFile Demo.env (Some Buffer) None "x.go" Demo.world_plain).2
     = stdout Demo.world_plain
     ∧ buf (fixFile Demo.env (Some Buffer) None "x.go" Demo.world_plain).2
       = buf Demo.world_plain
     ∧ fs (fixFile Demo.env (Some Buffer) None "x.go" Demo.world_plain).2
       = fs Demo.world_plain).
Proof.
  apply (fixFile_error_writes_nothing Demo.env (Some Buffer) None "x.go"
           Demo.world_plain false
           (ErrorString ("x.go" +:+ ": not a Go file within a package"))).
  vm_compute. reflexivity.
Defined.

(** A path that no package of its directory holds is refused with
    ["<path>: not a Go file within a package"], before the working
    directory is asked for and before any type check, read or write. *)
Theorem fixFile_refuses_a_file_outside_the_packages E w r path w0 pkgs :
  path ≠ ""%string ->
  parser_ParseDir E (fs w0) (filepath_Dir E path) = inl pkgs ->
  filepath_Clean E path ∉ file_names pkgs ->
  fixFile E w r path w0
  = (Ret (false, Some (ErrorString (path +:+ ": not a Go file within a package"))),
     {| fs := fs w0; stdin := stdin w0; stdout := stdout w0; stderr := stderr w0;
        buf := buf w0; calls := calls w0 ++ [CallParseDir (filepath_Dir E path)] |}).
Proof.
  intros Hp Hdir Hout.
  assert (Hnone : findPkgForFile E pkgs path = None).
  { pose proof (findPkgForFile_none E pkgs path) as Hf. by apply Hf. }
  unfold fixFile, try_, mbind, M_bind, mret, M_ret, log, get_world. simpl.
  rewrite decide_True by done. rewrite Hdir. rewrite decide_False by done.
  by rewrite Hnone.
Qed.

Lemma fixFile_refuses_a_file_outside_the_packages_witness :
  fixFile Demo.env None None "x.go" (Demo.world Demo.src_plain "")
  = (Ret (false, Some (ErrorString ("x.go" +:+ ": not a Go file within a package"))),
     {| fs := fs (Demo.world Demo.src_plain "");
        stdin := stdin (Demo.world Demo.src_plain "");
        stdout := stdout (Demo.world Demo.src_plain "");
        stderr := stderr (Demo.world Demo.src_plain "");
        buf := buf (Demo.world Demo.src_plain "");
        calls := calls (Demo.world Demo.src_plain "")
                 ++ [CallParseDir (filepath_Dir Demo.env "x.go")] |}).
Proof.
  apply (fixFile_refuses_a_file_outside_the_packages Demo.env None None "x.go"
           (Demo.world Demo.src_plain "") []).
  - discriminate.
  - reflexivity.
  - simpl. apply not_elem_of_nil.
Defined.

(** ** Further facts: the command *)

Lemma main_path_frame E ow l p w0 o w1 :
  main_path E ow l p w0 = (o, w1) ->
  (forall c, o = Exit c -> c = 1 ∧ fs w1 = fs w0)
  ∧ (ow = false -> fs w1 = fs w0)
  ∧ (ow = true -> l = false -> stdout w1 = stdout w0).
Proof.
  unfold main_path, ioutil_WriteFile, fmt_Println, write_stdout, log, get_world,
    set_fs, set_buf, os_Exit.
  unfold mbind, M_bind, mret, M_ret.
  destruct ow; simpl.
  - destruct (filepath_Abs E p) as [abs|err]; simpl.
    + destruct (fixFile E (Some Buffer) None abs _) as [[[fx [err|]]|c|] w'] eqn:Hrun;
        simpl; apply fixFile_frame in Hrun as (Hfs & _ & _ & Hout & _ & _ & Hexit & _);
        simpl in *.
      * destruct (reportErrs_frame [err] w') as [bs ->]. intros [= <- <-]; simpl.
        split_and!; [by intros c [= <-]|done|]. intros _ _. by apply Hout.
      * destruct l; simpl.
        -- rewrite andb_true_r. destruct fx; simpl.
           ++ destruct (write_error E (fs w') p) as [err|]; simpl.
              ** match goal with |- context [reportErrs ?es ?w] =>
                   destruct (reportErrs_frame es w) as [bs ->] end.
                 intros [= <- <-]; simpl. split_and!; [by intros c [= <-]|done|done].
              ** intros [= <- <-]; simpl. split_and!; done.
           ++ destruct (write_error E (fs w') p) as [err|]; simpl.
              ** match goal with |- context [reportErrs ?es ?w] =>
                   destruct (reportErrs_frame es w) as [bs ->] end.
                 intros [= <- <-]; simpl. split_and!; [by intros c [= <-]|done|done].
              ** intros [= <- <-]; simpl. split_and!; done.
        -- rewrite andb_false_r. simpl.
           destruct (write_error E (fs w') p) as [err|]; simpl.
           ++ match goal with |- context [reportErrs ?es ?w] =>
                destruct (reportErrs_frame es w) as [bs ->] end.
              intros [= <- <-]; simpl.
              split_and!; [by intros c [= <-]|done|]. intros _ _. by apply Hout.
           ++ intros [= <- <-]; simpl.
              split_and!; [done|done|]. intros _ _. by apply Hout.
      * by destruct (Hexit c).
      * intros [= <- <-]. split_and!; [done|done|]. intros _ _. by apply Hout.
    + match goal with |- context [reportErrs ?es ?w] =>
        destruct (reportErrs_frame es w) as [bs ->] end.
      intros [= <- <-]; simpl. split_and!; [by intros c [= <-]|done|done].
  - destruct (filepath_Abs E p) as [abs|err]; simpl.
    + destruct (fixFile E _ None abs _) as [[[fx [err|]]|c|] w'] eqn:Hrun;
        simpl; apply fixFile_frame in Hrun as (Hfs & _ & _ & _ & _ & _ & Hexit & _);
        simpl in *.
      * destruct (reportErrs_frame [err] w') as [bs ->]. intros [= <- <-]; simpl.
        split_and!; [by intros c [= <-]|done|done].
      * destruct (fx && l); simpl; intros [= <- <-]; simpl; split_and!; done.
      * by destruct (Hexit c).
      * intros [= <- <-]. split_and!; done.
    + match goal with |- context [reportErrs ?es ?w] =>
        destruct (reportErrs_frame es w) as [bs ->] end.
      intros [= <- <-]; simpl. split_and!; [by intros c [= <-]|done|done].
Qed.

Lemma main_loop_app E ow l ps qs w0 :
  main_loop E ow l (ps ++ qs) w0
  = match main_loop E ow l ps w0 with
    | (Ret _, w1) => main_loop E ow l qs w1
    | (Exit c, w1) => (Exit c, w1)
    | (Panic, w1) => (Panic, w1)
    end.
Proof.
  unfold main_loop. revert w0. induction ps as [|p ps IH]; intros w0; [done|].
  cbn [app foldr]. rewrite !M_bind_eq.
  destruct (main_path E ow l p w0) as [[[]|c|] w']; [apply IH|done|done].
Qed.

Lemma main_loop_frame E ow l ps : forall w0 o w1,
  main_loop E ow l ps w0 = (o, w1) ->
  (forall c, o = Exit c -> c = 1)
  ∧ (ow = false -> fs w1 = fs w0)
  ∧ (ow = true -> l = false -> stdout w1 = stdout w0).
Proof.
  unfold main_loop. induction ps as [|p ps IH]; intros w0 o w1; cbn [foldr].
  - intros [= <- <-]. done.
  - rewrite M_bind_eq.
    destruct (main_path E ow l p w0) as [[[]|c|] w'] eqn:Hp;
      apply main_path_frame in Hp as (Hexit & Hfs & Hout).
    + intros Hrest. apply IH in Hrest as (Hexit' & Hfs' & Hout').
      split_and!; [done| |].
      * intros Hw. by rewrite Hfs', Hfs.
      * intros Hw Hl. by rewrite Hout', Hout.
    + intros [= <- <-]. split_and!; [|done|done].
      intros c' [= <-]. by destruct (Hexit c eq_refl).
    + intros [= <- <-]. done.
Qed.

Lemma main_nonempty E ow l ps w0 :
  ps ≠ [] -> main E ow l ps w0 = main_loop E ow l ps w0.
Proof.
  intros Hne. unfold main. rewrite decide_False; [done|].
  by destruct ps.
Qed.

Lemma main_frame E ow l ps w0 o w1 :
  main E ow l ps w0 = (o, w1) ->
  (forall c, o = Exit c -> c = 1)
  ∧ (ow = false -> fs w1 = fs w0)
  ∧ (ow = true -> l = false -> stdout w1 = stdout w0).
Proof.
  destruct ps as [|p ps]; [|rewrite main_nonempty by done; apply main_loop_frame].
  unfold main. simpl. destruct ow.
  - intros [= <- <-]. split_and!; [by intros c [= <-]|done|done].
  - rewrite M_bind_eq.
    destruct (fixFile E _ (Some Stdin) "" w0) as [[[fx [err|]]|c|] w'] eqn:Hrun;
      apply fixFile_frame in Hrun as (Hfs & _ & _ & _ & _ & _ & Hexit & _).
    + simpl. rewrite M_bind_eq.
      destruct (reportErrs_frame [err] w') as [bs ->]. intros [= <- <-]; simpl.
      split_and!; [by intros c [= <-]|done|done].
    + simpl. unfold fmt_Println, write_stdout, mret, M_ret.
      destruct (fx && l); intros [= <- <-]; simpl; split_and!; done.
    + by destruct (Hexit c).
    + intros [= <- <-]. done.
Qed.

(** Whenever [main] ends the process, the exit status is 1. *)
Theorem main_exits_with_status_1 E ow l ps w0 c w1 :
  main E ow l ps w0 = (Exit c, w1) -> c = 1.
Proof.
  intros Hrun. apply main_frame in Hrun as (Hexit & _ & _). by apply Hexit.
Qed.

Lemma main_exits_with_status_1_witness : 1 = 1.
Proof.
  apply (main_exits_with_status_1 Demo.env false false ["x.go"%string]
           (Demo.world Demo.src_plain "") 1
           (main Demo.env false false ["x.go"%string] (Demo.world Demo.src_plain "")).2).
  vm_compute. reflexivity.
Defined.

(** Without [-w] the program changes no file, whatever the paths and
    however the run ends. *)
Theorem main_without_w_changes_no_file E l ps w0 o w1 :
  main E false l ps w0 = (o, w1) -> fs w1 = fs w0.
Proof.
  intros Hrun. apply main_frame in Hrun as (_ & Hfs & _). by apply Hfs.
Qed.

Lemma main_without_w_changes_no_file_witness :
  fs (main Demo.env false false ["/p/a.go"%string] (Demo.world Demo.src_unkeyed "")).2
  = fs (Demo.world Demo.src_unkeyed "").
Proof.
  apply (main_without_w_changes_no_file Demo.env false ["/p/a.go"%string]
           (Demo.world Demo.src_unkeyed "")
           (main Demo.env false false ["/p/a.go"%string]
              (Demo.world Demo.src_unkeyed "")).1).
  vm_compute. reflexivity.
Defined.

(** With [-w] and without [-l] the program prints nothing on standard
    output: the patched text goes to the files only. *)
Theorem main_w_without_l_prints_nothing E ps w0 o w1 :
  main E true false ps w0 = (o, w1) -> stdout w1 = stdout w0.
Proof.
  intros Hrun. apply main_frame in Hrun as (_ & _ & Hout). by apply Hout.
Qed.

Lemma main_w_without_l_prints_nothing_witness :
  stdout (main Demo.env true false ["/p/a.go"%string] (Demo.world Demo.src_unkeyed "")).2
  = stdout (Demo.world Demo.src_unkeyed "").
Proof.
  apply (main_w_without_l_prints_nothing Demo.env ["/p/a.go"%string]
           (Demo.world Demo.src_unkeyed "")
           (main Demo.env true false ["/p/a.go"%string]
              (Demo.world Demo.src_unkeyed "")).1).
  vm_compute. reflexivity.
Defined.

(** The first path that fails ends the run: the paths after it are not
    processed and the world is the one the failing path left.  The failing
    path touched no file but its own, and not its own either when the write
    to it cannot fail (the failure then comes before the write), so what
    the earlier paths wrote to other files stays written. *)
Theorem main_stops_at_the_first_failure E ow l ps p rest w0 w1 c w2 :
  main_loop E ow l ps w0 = (Ret (), w1) ->
  main_path E ow l p w1 = (Exit c, w2) ->
  main E ow l (ps ++ p :: rest) w0 = (Exit c, w2)
  ∧ (forall k, k ≠ os_resolve E p -> fs w2 !! k = fs w1 !! k)
  ∧ (write_error E (fs w1) p = None -> fs w2 = fs w1).
Proof.
  intros Hps Hp. split; [|split].
  - rewrite main_nonempty by (by destruct ps).
    rewrite main_loop_app, Hps. unfold main_loop. cbn [foldr].
    by rewrite M_bind_eq, Hp.
  - intros k _. apply main_path_frame in Hp as (Hexit & _ & _).
    destruct (Hexit c eq_refl) as [_ ->]. done.
  - intros _. apply main_path_frame in Hp as (Hexit & _ & _).
    by destruct (Hexit c eq_refl).
Qed.

Lemma main_stops_at_the_first_failure_witness :
  main Demo.env true false (["/p/a.go"%string] ++ "x.go"%string :: ["/p/a.go"%string])
       (Demo.world Demo.src_plain "")
  = (Exit 1,
     (main_path Demo.env true false "x.go"
        (main_loop Demo.env true false ["/p/a.go"%string]
           (Demo.world Demo.src_plain "")).2).2)
  ∧ (forall k, k ≠ os_resolve Demo.env "x.go" ->
       fs (main_path Demo.env true false "x.go"
             (main_loop Demo.env true false ["/p/a.go"%string]
                (Demo.world Demo.src_plain "")).2).2 !! k
       = fs (main_loop Demo.env true false ["/p/a.go"%string]
               (Demo.world Demo.src_plain "")).2 !! k)
  ∧ (write_error Demo.env
       (fs (main_loop Demo.env true false ["/p/a.go"%string]
              (Demo.world Demo.src_plain "")).2) "x.go" = None ->
     fs (main_path Demo.env true false "x.go"
           (main_loop Demo.env true false ["/p/a.go"%string]
              (Demo.world Demo.src_plain "")).2).2
     = fs (main_loop Demo.env true false ["/p/a.go"%string]
             (Demo.world Demo.src_plain "")).2).
Proof.
  apply (main_stops_at_the_first_failure Demo.env true false ["/p/a.go"%string]
           "x.go" ["/p/a.go"%string] (Demo.world Demo.src_plain "")).
  - vm_compute. reflexivity.
  - vm_compute. reflexivity.
Defined.

(** On that run the first file has been rewritten when the second path
    fails, and it stays rewritten. *)
Example earlier_files_stay_rewritten :
  let r := main Demo.env true false ["/p/a.go"%string; "x.go"%string]
             (Demo.world Demo.src_plain "") in
  r.1 = Exit 1
  ∧ fs r.2 !! "/p/a.go"%string = Some (bytes_of Demo.src_plain_fmt)
  ∧ stderr r.2 = bytes_of ("x.go: not a Go file within a package" +:+ nl).
Proof. vm_compute. done. Qed.

Lemma main_path_list_only E p w0 o w1 :
  main_path E false true p w0 = (o, w1) ->
  stdout w1 = stdout w0 ∨ stdout w1 = stdout w0 ++ bytes_of (p +:+ nl).
Proof.
  unfold main_path, fmt_Println, write_stdout, log, get_world, os_Exit.
  unfold mbind, M_bind, mret, M_ret. simpl.
  destruct (filepath_Abs E p) as [abs|err]; simpl.
  - destruct (fixFile E None None abs _) as [[[fx [err|]]|c|] w'] eqn:Hrun;
      simpl; apply fixFile_frame in Hrun as (_ & _ & _ & Hout & _ & _ & Hexit & _);
      simpl in *.
    + destruct (reportErrs_frame [err] w') as [bs ->]. intros [= <- <-]; simpl.
      left. by apply Hout.
    + rewrite andb_true_r. destruct fx; simpl; intros [= <- <-]; simpl.
      * right. by rewrite Hout.
      * left. by apply Hout.
    + by destruct (Hexit c).
    + intros [= <- <-]. left. by apply Hout.
  - match goal with |- context [reportErrs ?es ?w] =>
      destruct (reportErrs_frame es w) as [bs ->] end.
    intros [= <- <-]; simpl. by left.
Qed.

(** In list-only mode ([-l] without [-w]) standard output receives
    nothing but lines that each hold one of the given paths, in the order
    of the paths, each at most once per occurrence; on standard input the
    only possible line is [<standard input>]. *)
Theorem main_list_only_prints_paths E ps w0 o w1 :
  main E false true ps w0 = (o, w1) ->
  ∃ qs, qs `sublist_of` (if decide (ps = []) then ["<standard input>"%string] else ps)
        ∧ stdout w1 = stdout w0 ++ (qs ≫= fun p => bytes_of (p +:+ nl)).
Proof.
  destruct ps as [|p ps].
  - rewrite decide_True by done. unfold main. simpl. rewrite M_bind_eq.
    destruct (fixFile E None (Some Stdin) "" w0) as [[[fx [err|]]|c|] w'] eqn:Hrun;
      apply fixFile_frame in Hrun as (_ & _ & _ & Hout & _ & _ & Hexit & _).
    + simpl. rewrite M_bind_eq.
      destruct (reportErrs_frame [err] w') as [bs ->]. intros [= <- <-]; simpl.
      exists []. split; [apply sublist_nil_l|]. rewrite app_nil_r. by apply Hout.
    + simpl. unfold fmt_Println, write_stdout, mret, M_ret. rewrite andb_true_r.
      destruct fx; intros [= <- <-]; simpl.
      * exists ["<standard input>"%string]. split; [done|]. csimpl.
        rewrite ?app_nil_r. by rewrite Hout.
      * exists []. split; [apply sublist_nil_l|]. rewrite app_nil_r. by apply Hout.
    + by destruct (Hexit c).
    + intros [= <- <-]. exists []. split; [apply sublist_nil_l|].
      rewrite app_nil_r. by apply Hout.
  - rewrite decide_False by done. rewrite main_nonempty by done.
    generalize (p :: ps). clear p ps. intros ps. revert w0 o w1.
    unfold main_loop. induction ps as [|p ps IH]; intros w0 o w1; cbn [foldr].
    + intros [= <- <-]. exists []. split; [done|]. by rewrite app_nil_r.
    + rewrite M_bind_eq.
      destruct (main_path E false true p w0) as [[[]|c|] w'] eqn:Hp;
        apply main_path_list_only in Hp.
      * intros Hrest. apply IH in Hrest as (qs & Hqs & Hout).
        destruct Hp as [Hp|Hp]; rewrite Hout, Hp.
        -- exists qs. split; [by apply sublist_cons|done].
        -- exists (p :: qs). split; [by apply sublist_skip|].
           csimpl. by rewrite app_assoc.
      * intros [= <- <-]. destruct Hp as [Hp|Hp]; rewrite Hp.
        -- exists []. split; [apply sublist_nil_l|]. by rewrite app_nil_r.
        -- exists [p]. split; [apply sublist_skip, sublist_nil_l|].
           csimpl. by rewrite ?app_nil_r.
      * intros [= <- <-]. destruct Hp as [Hp|Hp]; rewrite Hp.
        -- exists []. split; [apply sublist_nil_l|]. by rewrite app_nil_r.
        -- exists [p]. split; [apply sublist_skip, sublist_nil_l|].
           csimpl. by rewrite ?app_nil_r.
Qed.

Lemma main_list_only_prints_paths_witness :
  ∃ qs, qs `sublist_of` (if decide (["/p/a.go"%string] = [])
                         then ["<standard input>"%string] else ["/p/a.go"%string])
        ∧ stdout (main Demo.env false true ["/p/a.go"%string]
                    (Demo.world Demo.src_unkeyed "")).2
          = stdout (Demo.world Demo.src_unkeyed "")
            ++ (qs ≫= fun p => bytes_of (p +:+ nl)).
Proof.
  apply (main_list_only_prints_paths Demo.env ["/p/a.go"%string]
           (Demo.world Demo.src_unkeyed "")
           (main Demo.env false true ["/p/a.go"%string]
              (Demo.world Demo.src_unkeyed "")).1).
  vm_compute. reflexivity.
Defined.

(** When the directory of a path does not parse, the run ends for that
    path with status 1 after printing the error: every entry of a
    [scanner.ErrorList] on a line of its own, any other error on one line.
    Nothing is type-checked, read back, formatted or written. *)
Theorem main_path_reports_parse_errors E ow l p abs err w0 :
  filepath_Abs E p = inl abs ->
  abs ≠ ""%string ->
  parser_ParseDir E (fs w0) (filepath_Dir E abs) = inr err ->
  main_path E ow l p w0
  = (Exit 1,
     {| fs := fs w0; stdin := stdin w0; stdout := stdout w0;
        stderr := stderr w0 ++ err_lines err;
        buf := if ow then [] else buf w0;
        calls := calls w0 ++ [CallAbs p; CallParseDir (filepath_Dir E abs)] |}).
Proof.
  intros Habs Hne Hdir.
  assert (Hrep : forall w, reportErrs [err] w
    = (Ret (), {| fs := fs w; stdin := stdin w; stdout := stdout w;
                  stderr := stderr w ++ err_lines err;
                  buf := buf w; calls := calls w |})).
  { intros w. destruct err as [errs|msg]; [|done].
    unfold reportErrs, reportErr, err_lines. cbn [foldr]. rewrite M_bind_eq.
    assert (Hlist : forall w, foldr (fun e k => _ ← fmt_Fprintln_Stderr e; k) (mret ()) errs w
      = (Ret (), {| fs := fs w; stdin := stdin w; stdout := stdout w;
                    stderr := stderr w ++ (errs ≫= fun e => bytes_of (e +:+ nl));
                    buf := buf w; calls := calls w |})).
    { clear. induction errs as [|e errs IH]; intros w; cbn [foldr].
      - simpl. rewrite app_nil_r. by destruct w.
      - rewrite M_bind_eq. unfold fmt_Fprintln_Stderr at 1, write_stderr.
        rewrite IH. simpl. by rewrite <- app_assoc. }
    rewrite Hlist. done. }
  unfold main_path, log, get_world, set_buf, os_Exit.
  unfold mbind, M_bind, mret, M_ret. simpl. rewrite Habs.
  unfold fixFile, try_, log, get_world. unfold mbind, M_bind, mret, M_ret.
  destruct ow; simpl; rewrite decide_True by done; rewrite Hdir; simpl;
    rewrite Hrep; simpl; by rewrite <- app_assoc.
Qed.

Lemma main_path_reports_parse_errors_witness :
  main_path Demo.env false false "/p/a.go" (Demo.world "not go" "")
  = (Exit 1,
     {| fs := fs (Demo.world "not go" ""); stdin := stdin (Demo.world "not go" "");
        stdout := stdout (Demo.world "not go" "");
        stderr := stderr (Demo.world "not go" "")
                  ++ err_lines (ErrorList ["1:1: expected 'package'"%string]);
        buf := buf (Demo.world "not go" "");
        calls := calls (Demo.world "not go" "")
                 ++ [CallAbs "/p/a.go"; CallParseDir (filepath_Dir Demo.env "/p/a.go")] |}).
Proof.
  apply (main_path_reports_parse_errors Demo.env false false "/p/a.go" "/p/a.go"
           (ErrorList ["1:1: expected 'package'"%string]) (Demo.world "not go" "")).
  - reflexivity.
  - discriminate.
  - reflexivity.
Defined.
